(** * cuda-ml: the tensor engine of [src/tensor.h]

    A shallow embedding of the tensor header: the row-major stride
    computation of the shape constructor, transposed views, the broadcast
    resolver, the CUDA kernels with their grid launches, batched matrix
    multiplication, the backward (autograd) nodes, the factories and the
    stream output, followed by the properties established for them.

    Conventions.
    - [size_t] values are integers in [Z] reduced modulo [2^64] after every
      operation ([wrap64]); the built-in thread coordinates are
      [unsigned int] ([wrap32]); [int] variables go through [to_int].
    - The element type [T] of the templates is a parameter with the
      operations the kernels use ([Scalar]).
    - Device memory is a list of cells; a cell is [None] until a kernel or
      a host copy has written it, and a read outside a buffer yields [None]
      as well.
    - Host operations whose behaviour is undefined in C++ (reading past a
      vector, dereferencing a null node) return [Err].
    - A launch from host code runs its threads only when the runtime
      accepts the grid and block sizes ([Kernel.host_launch]); the host
      code never looks at the launch error.
    - An output stream is the list of the pieces sent to it. *)

From stdpp Require Import prelude strings.
From Stdlib Require Import ZArith Lia.

Local Open Scope Z_scope.

(** ** Machine integers *)

Definition wrap64 (z : Z) : Z := z mod 2 ^ 64.
Definition wrap32 (z : Z) : Z := z mod 2 ^ 32.
Definition to_int (z : Z) : Z := (z + 2 ^ 31) mod 2 ^ 32 - 2 ^ 31.

(** ** Results of host code *)

Inductive fault : Set :=
| NullNode        (* a null [Backward<T>*] was dereferenced *)
| OutOfRange      (* a vector or array was read or written past its end *)
| DivisionByZero
| OutOfFuel.      (* the bound on nested node invocations was reached *)

Inductive result (A : Type) : Type :=
| Ok (a : A)
| Err (f : fault).
Arguments Ok {A} a.
Arguments Err {A} f.

#[global] Instance result_ret : MRet result := fun A a => Ok a.
#[global] Instance result_bind : MBind result := fun A B k r =>
  match r with
  | Ok a => k a
  | Err f => Err f
  end.

Definition at_ {A : Type} (v : list A) (i : nat) : result A :=
  match v !! i with
  | Some a => Ok a
  | None => Err OutOfRange
  end.

Definition at_z {A : Type} (v : list A) (i : Z) : result A :=
  if 0 <=? i then at_ v (Z.to_nat i) else Err OutOfRange.

Definition set_ {A : Type} (v : list A) (i : nat) (a : A) : result (list A) :=
  if decide (i < length v)%nat then Ok (<[i := a]> v) else Err OutOfRange.

(** The first [n] entries of an array, as a [cudaMemcpy] of [n] entries
    reads them. *)
Definition take_ {A : Type} (v : list A) (n : nat) : result (list A) :=
  if decide (n <= length v)%nat then Ok (take n v) else Err OutOfRange.

(** ** The element type *)

Class Scalar (T : Type) : Type := {
  s_zero : T;
  s_one : T;
  s_add : T -> T -> T;
  s_sub : T -> T -> T;
  s_mul : T -> T -> T;
  s_div : T -> T -> T;
  s_neg : T -> T;
  s_pos : T -> bool;          (* [x > 0] *)
  s_sizeof : Z;
  s_sizeof_range : 0 < s_sizeof < 2 ^ 32
}.

(** ** CUDA launches *)

Record dim3 : Set := Dim3 { x : Z; y : Z; z : Z }.

Record thread : Set := Thread { blockIdx : dim3; blockDim : dim3; threadIdx : dim3 }.

(** The threads of [<<<grid, block>>>]. *)
Definition threads (grid block : dim3) : list thread :=
  bz ← seqZ 0 (z grid); by_ ← seqZ 0 (y grid); bx ← seqZ 0 (x grid);
  tz ← seqZ 0 (z block); ty ← seqZ 0 (y block); tx ← seqZ 0 (x block);
  [Thread (Dim3 bx by_ bz) block (Dim3 tx ty tz)].

(** [dim3(a)] and [dim3(a, b, c)] take [unsigned int] components. *)
Definition dim3_1 (a : Z) : dim3 := Dim3 (wrap32 a) 1 1.
Definition dim3_3 (a b c : Z) : dim3 := Dim3 (wrap32 a) (wrap32 b) (wrap32 c).

Module Kernel.
Section Kernels.
Context {T : Type} `{Scalar T}.

Local Abbreviation cell := (option T).
Local Abbreviation buffer := (list (option T)).

(** [p[i]] as a read: outside the buffer, or on a cell never written, the
    value is indeterminate ([None]). *)
Definition load (p : buffer) (i : Z) : cell :=
  if 0 <=? i then mjoin (p !! Z.to_nat i) else None.

(** [p[i] = v]: a store outside the buffer, undefined in the source,
    leaves the buffer as it is. *)
Definition store (p : buffer) (i : Z) (v : cell) : buffer :=
  if 0 <=? i then <[Z.to_nat i := v]> p else p.

(** Arithmetic on cells: indeterminate as soon as an operand is. *)

Definition lift1 (f : T -> T) (a : cell) : cell := f <$> a.

Definition lift2 (f : T -> T -> T) (a b : cell) : cell :=
  match a, b with
  | Some u, Some v => Some (f u v)
  | _, _ => None
  end.

(** A thread is described by the stores it performs on the output
    buffer; its reads are from input buffers no thread writes. *)
Local Abbreviation stores := (list (Z * option T)).

Definition run (out : buffer) (ws : stores) : buffer :=
  foldl (fun o w => store o w.1 w.2) out ws.

(** A launch that runs: the stores of all threads of the grid applied to
    the output buffer, in the order of [threads]; [run_lookup] below shows
    that the order does not matter when the stores to a cell agree. *)
Definition launch (grid block : dim3) (kernel : thread -> stores) (out : buffer) : buffer :=
  run out (threads grid block ≫= kernel).

(** The configurations the runtime accepts (compute capability 3.0 and
    later): no dimension zero, at most [2^31 - 1] blocks along x and 65535
    along y and along z, blocks of at most [1024 x 1024 x 64] and of at
    most 1024 threads. *)
Definition accepted (grid block : dim3) : bool :=
  (1 <=? x grid) && (x grid <=? 2 ^ 31 - 1) &&
  (1 <=? y grid) && (y grid <=? 65535) &&
  (1 <=? z grid) && (z grid <=? 65535) &&
  (1 <=? x block) && (x block <=? 1024) &&
  (1 <=? y block) && (y block <=? 1024) &&
  (1 <=? z block) && (z block <=? 64) &&
  (x block * y block * z block <=? 1024).

(** [kernel<<<grid, block>>>(...)] as the host code writes it, without
    looking at the launch error: a configuration the runtime refuses runs
    no thread, and the output buffer stays as it is. *)
Definition host_launch (grid block : dim3) (kernel : thread -> stores) (out : buffer)
    : buffer :=
  if accepted grid block then launch grid block kernel out else out.

(** [get_indices]: [k] iterations remain, [i] is the loop variable. *)
Fixpoint get_indices_loop (k i : nat) (strides1 strides2 strides : list Z)
    (index_remainder i0 i1 : Z) : result (Z * Z) :=
  match k with
  | O => Ok (i0, i1)
  | S k' =>
      s ← at_ strides i;
      s1 ← at_ strides1 i;
      s2 ← at_ strides2 i;
      if s =? 0 then Err DivisionByZero else
      let dim := index_remainder / s in
      get_indices_loop k' (S i) strides1 strides2 strides
        (wrap64 (index_remainder - wrap64 (dim * s)))
        (wrap64 (i0 + wrap64 (dim * s1)))
        (wrap64 (i1 + wrap64 (dim * s2)))
  end.

Definition get_indices (index : Z) (rank : nat) (strides1 strides2 strides : list Z)
    : result (Z * Z) :=
  get_indices_loop rank 0 strides1 strides2 strides index 0 0.

(** The four broadcasting kernels share their body up to the operator
    and the type of [index]. *)
Definition binary (f : T -> T -> T) (index : Z) (n : Z) (rank : nat)
    (tensor1_strides tensor2_strides strides : list Z) (tensor1 tensor2 : buffer) : stores :=
  if wrap64 index <? n then
    match get_indices (wrap64 index) rank tensor1_strides tensor2_strides strides with
    | Ok (i0, i1) => [(index, lift2 f (load tensor1 i0) (load tensor2 i1))]
    | Err _ => [(index, None)]
    end
  else [].

(** [blockIdx.x * blockDim.x + threadIdx.x], in [unsigned int]. *)
Definition global_x (t : thread) : Z :=
  wrap32 (wrap32 (x (blockIdx t) * x (blockDim t)) + x (threadIdx t)).
Definition global_y (t : thread) : Z :=
  wrap32 (wrap32 (y (blockIdx t) * y (blockDim t)) + y (threadIdx t)).

Definition add (n : Z) (rank : nat) (tensor1_strides tensor2_strides strides : list Z)
    (tensor1 tensor2 : buffer) (t : thread) : stores :=
  let index := global_x t in                           (* const size_t index *)
  binary s_add index n rank tensor1_strides tensor2_strides strides tensor1 tensor2.

Definition subtract (n : Z) (rank : nat) (tensor1_strides tensor2_strides strides : list Z)
    (tensor1 tensor2 : buffer) (t : thread) : stores :=
  let index := to_int (global_x t) in                  (* const int index *)
  binary s_sub index n rank tensor1_strides tensor2_strides strides tensor1 tensor2.

Definition multiply (n : Z) (rank : nat) (tensor1_strides tensor2_strides strides : list Z)
    (tensor1 tensor2 : buffer) (t : thread) : stores :=
  let index := global_x t in
  binary s_mul index n rank tensor1_strides tensor2_strides strides tensor1 tensor2.

Definition divide (n : Z) (rank : nat) (tensor1_strides tensor2_strides strides : list Z)
    (tensor1 tensor2 : buffer) (t : thread) : stores :=
  let index := global_x t in
  binary s_div index n rank tensor1_strides tensor2_strides strides tensor1 tensor2.

(** The accumulation loop of [matrix_multiply]: [product += a * b] for
    [i = 0 .. shared_dim - 1]. *)
Definition dot (shared_dim : Z) (a b : Z -> cell) : cell :=
  foldl (fun product i => lift2 s_add product (lift2 s_mul (a i) (b i)))
        (Some s_zero) (seqZ 0 shared_dim).

(** [matrix_multiply]; a thread whose stride reads fall outside the
    stride arrays stores nothing. *)
Definition matrix_multiply (rank : Z) (height width shared_dim : Z)
    (tensor1_strides tensor2_strides : list Z) (tensor1 tensor2 : buffer) (t : thread) : stores :=
  let row := global_x t in
  let column := global_y t in
  if (row <? height) && (column <? width) then
    match at_z tensor1_strides (wrap64 (rank - 2)), at_z tensor1_strides (wrap64 (rank - 1)),
          at_z tensor2_strides (wrap64 (rank - 2)), at_z tensor2_strides (wrap64 (rank - 1)) with
    | Ok s1r, Ok s1c, Ok s2r, Ok s2c =>
        let bz := z (blockIdx t) in
        let tensor1_start :=
          wrap64 (wrap64 (wrap64 (bz * height) * shared_dim) + wrap64 (row * s1r)) in
        let tensor2_start :=
          wrap64 (wrap64 (wrap64 (bz * width) * shared_dim) + wrap64 (column * s2c)) in
        let product :=
          dot shared_dim
            (fun i => load tensor1 (wrap64 (tensor1_start + wrap64 (i * s1c))))
            (fun i => load tensor2 (wrap64 (tensor2_start + wrap64 (i * s2r)))) in
        [(wrap64 (wrap64 (wrap64 (wrap64 (bz * height) * width) + wrap64 (row * width)) + column),
          product)]
    | _, _, _, _ => []
    end
  else [].

(** The unary kernels keep their index in a [const int i]. *)
Definition negate (n : Z) (input : buffer) (t : thread) : stores :=
  let i := to_int (global_x t) in
  if wrap64 i <? n then [(i, lift1 s_neg (load input i))] else [].

(** [sum]: every thread accumulates the [n] cells serially and stores the
    total in cell 0. *)
Definition sum (n : Z) (input : buffer) (t : thread) : stores :=
  [(0, foldl (fun acc i => lift2 s_add acc (load input i)) (Some s_zero) (seqZ 0 n))].

Definition relu (n : Z) (input : buffer) (t : thread) : stores :=
  let i := to_int (global_x t) in
  if wrap64 i <? n
  then [(i, lift1 (fun v => if s_pos v then v else s_zero) (load input i))]
  else [].

Definition relu_d (n : Z) (input : buffer) (t : thread) : stores :=
  let i := to_int (global_x t) in
  if wrap64 i <? n
  then [(i, lift1 (fun v => if s_pos v then s_one else s_zero) (load input i))]
  else [].

End Kernels.
End Kernel.

(** ** Tensors and backward nodes *)

Section Tensors.
Context {T : Type} `{Scalar T}.

(** The fields of [Tensor<T>]. The buffer [data] points to is given by
    its cells: a view made by [transpose] copies the pointer and so has
    the cells of its source, and no operation writes to the buffer of an
    existing tensor. *)
Record Tensor : Type := mkTensor {
  data : list (option T);        (* the cells [data] points to *)
  shape : list Z;                (* std::vector<int> *)
  rank : nat;                    (* size_t, the length of a vector *)
  strides : list Z;              (* std::vector<size_t> *)
  n_elements : Z;
  size : Z;
  backward : option nat          (* Backward<T>*, an address in the heap *)
}.

Inductive node_class : Set := Backward_base | AccumulateGradients | MultiplyBackward.

Record Backward : Type := mkBackward {
  class : node_class;            (* which [operator()] the object has *)
  tensors : list Tensor;
  backwards : list (option nat)
}.

(** Nodes are created by [new] and never deleted: the heap is the list
    of all nodes created so far, a node's address its position. *)
Local Abbreviation heap := (list Backward).

Definition new (h : heap) (b : Backward) : nat * heap := (length h, h ++ [b]).

(** *** Construction *)

(** The descending loop of the constructor: the strides of [shape] and
    the value of [stride] after the last iteration. *)
Fixpoint row_major (shape : list Z) : list Z * Z :=
  match shape with
  | [] => ([], 1)
  | d :: rest =>
      let '(strides, stride) := row_major rest in
      (stride :: strides, wrap64 (stride * wrap64 d))
  end.

(** [cudaMalloc(&data, size)]: the whole cells [size] bytes hold. *)
Definition cudaMalloc (size : Z) : list (option T) :=
  replicate (Z.to_nat (size / s_sizeof)) None.

(** The constructor [Tensor(const std::vector<int>& shape)]. *)
Definition Tensor_new (shape : list Z) : Tensor :=
  let n_elements := foldl (fun acc d => wrap64 (acc * wrap64 d)) 1 shape in
  let size := wrap64 (n_elements * s_sizeof) in
  {| data := cudaMalloc size;
     shape := shape;
     rank := length shape;
     strides := (row_major shape).1;
     n_elements := n_elements;
     size := size;
     backward := None |}.

(** [t] after a kernel or a host copy has filled its buffer with [d], and
    [t] after its [backward] member was assigned. *)
Definition with_data (t : Tensor) (d : list (option T)) : Tensor :=
  {| data := d; shape := shape t; rank := rank t; strides := strides t;
     n_elements := n_elements t; size := size t; backward := backward t |}.

Definition with_backward (t : Tensor) (b : option nat) : Tensor :=
  {| data := data t; shape := shape t; rank := rank t; strides := strides t;
     n_elements := n_elements t; size := size t; backward := b |}.

(** [from_vector]: [std::copy] fills a staging array of [size] bytes,
    which a vector longer than that overruns. *)
Definition from_vector (vector : list T) (shape : list Z) : result Tensor :=
  let tensor := Tensor_new shape in
  if decide (length vector <= length (data tensor))%nat
  then Ok (with_data tensor
             (imap (fun i c => match vector !! i with Some v => Some v | None => c end)
                   (data tensor)))
  else Err OutOfRange.

(** *** Indexing and views *)

Fixpoint inner_product (v1 v2 : list Z) (init : Z) : result Z :=
  match v1, v2 with
  | [], _ => Ok init
  | _ :: _, [] => Err OutOfRange
  | s :: v1', i :: v2' => inner_product v1' v2' (wrap64 (init + wrap64 (s * wrap64 i)))
  end.

(** The subscript operator. *)
Definition subscript (t : Tensor) (indices : list Z) : result (option T) :=
  index ← inner_product (strides t) indices 0;
  Ok (Kernel.load (data t) index).

(** [transpose]: a copy of [t], buffer pointer included, with the two
    shape entries and the two stride entries exchanged, each read from
    [t] itself. *)
Definition transpose (t : Tensor) (dim1 dim2 : nat) : result Tensor :=
  d2 ← at_ (shape t) dim2;
  shape1 ← set_ (shape t) dim1 d2;
  d1 ← at_ (shape t) dim1;
  shape2 ← set_ shape1 dim2 d1;
  s2 ← at_ (strides t) dim2;
  strides1 ← set_ (strides t) dim1 s2;
  s1 ← at_ (strides t) dim1;
  strides2 ← set_ strides1 dim2 s1;
  Ok {| data := data t; shape := shape2; rank := rank t; strides := strides2;
        n_elements := n_elements t; size := size t; backward := backward t |}.

(** *** The broadcast resolver *)

(** The loop of [prepare_broadcast] over the local [shape] and the two
    zero-initialised stride arrays: [k] iterations remain, [i] is the loop
    variable. *)
Fixpoint broadcast_loop (k i : nat) (tensor1 tensor2 : Tensor)
    (shape_ tensor1_strides tensor2_strides : list Z)
    : result (list Z * list Z * list Z) :=
  match k with
  | O => Ok (shape_, tensor1_strides, tensor2_strides)
  | S k' =>
      d1 ← at_ (shape tensor1) i;
      d2 ← at_ (shape tensor2) i;
      if d1 =? d2 then
        s1 ← at_ (strides tensor1) i;
        tensor1_strides' ← set_ tensor1_strides i s1;
        s2 ← at_ (strides tensor2) i;
        tensor2_strides' ← set_ tensor2_strides i s2;
        broadcast_loop k' (S i) tensor1 tensor2 shape_ tensor1_strides' tensor2_strides'
      else if d1 >? d2 then
        s1 ← at_ (strides tensor1) i;
        tensor1_strides' ← set_ tensor1_strides i s1;
        broadcast_loop k' (S i) tensor1 tensor2 shape_ tensor1_strides' tensor2_strides
      else
        s2 ← at_ (strides tensor2) i;
        tensor2_strides' ← set_ tensor2_strides i s2;
        shape' ← set_ shape_ i d2;
        broadcast_loop k' (S i) tensor1 tensor2 shape' tensor1_strides tensor2_strides'
  end.

(** The result lists the three device arrays ([d_tensor1_strides],
    [d_tensor2_strides], [d_strides]) and the tensor assigned to [sum]. *)
Definition prepare_broadcast (tensor1 tensor2 : Tensor)
    : result (list Z * list Z * list Z * Tensor) :=
  '(shape_, tensor1_strides, tensor2_strides) ←
    broadcast_loop (rank tensor1) 0 tensor1 tensor2 (shape tensor1)
      (replicate (rank tensor1) 0) (replicate (rank tensor2) 0);
  let sum := Tensor_new shape_ in
  d_strides ← take_ (strides sum) (rank sum);
  d_tensor1_strides ← take_ tensor1_strides (rank sum);
  d_tensor2_strides ← take_ tensor2_strides (rank sum);
  Ok (d_tensor1_strides, d_tensor2_strides, d_strides, sum).

(** *** Operators *)

(** [<<<(n + 255) / 256, 256>>>] *)
Definition grid_1d (n : Z) : dim3 := dim3_1 (wrap64 (n + 255) / 256).
Definition block_1d : dim3 := dim3_1 256.

Definition broadcast_op
    (kernel : Z -> nat -> list Z -> list Z -> list Z ->
              list (option T) -> list (option T) -> thread -> list (Z * option T))
    (tensor1 tensor2 : Tensor) : result Tensor :=
  '(tensor1_strides, tensor2_strides, strides_, out) ← prepare_broadcast tensor1 tensor2;
  Ok (with_data out
        (Kernel.host_launch (grid_1d (n_elements out)) block_1d
           (kernel (n_elements out) (rank out) tensor1_strides tensor2_strides strides_
                   (data tensor1) (data tensor2))
           (data out))).

Definition operator_add : Tensor -> Tensor -> result Tensor := broadcast_op Kernel.add.
Definition operator_sub : Tensor -> Tensor -> result Tensor := broadcast_op Kernel.subtract.
Definition operator_div : Tensor -> Tensor -> result Tensor := broadcast_op Kernel.divide.

Definition operator_mul (h : heap) (tensor1 tensor2 : Tensor) : result (Tensor * heap) :=
  product ← broadcast_op Kernel.multiply tensor1 tensor2;
  let '(p, h') :=
    new h (mkBackward MultiplyBackward [tensor1; tensor2]
                      [backward tensor1; backward tensor2]) in
  Ok (with_backward product (Some p), h').

Definition operator_neg (t : Tensor) : Tensor :=
  let negation := Tensor_new (shape t) in
  with_data negation
    (Kernel.host_launch (grid_1d (n_elements t)) block_1d
       (Kernel.negate (n_elements t) (data t)) (data negation)).

Definition mm (tensor1 tensor2 : Tensor) : result Tensor :=
  back2 ← at_z (shape tensor2) (Z.of_nat (length (shape tensor2)) - 1);
  shape_ ← (if decide (0 < length (shape tensor1))%nat
            then Ok (<[pred (length (shape tensor1)) := back2]> (shape tensor1))
            else Err OutOfRange);
  let matrix_product := Tensor_new shape_ in
  h ← at_z (shape matrix_product) (Z.of_nat (length (shape matrix_product)) - 2);
  w ← at_z (shape matrix_product) (Z.of_nat (length (shape matrix_product)) - 1);
  s ← at_z (shape tensor1) (Z.of_nat (length (shape tensor1)) - 1);
  let height := wrap64 h in
  let width := wrap64 w in
  let shared_dim := wrap64 s in
  if wrap64 (height * width) =? 0 then Err DivisionByZero else
  let batch_size := n_elements matrix_product / wrap64 (height * width) in
  tensor1_strides ← take_ (strides tensor1) (rank matrix_product);
  tensor2_strides ← take_ (strides tensor2) (rank matrix_product);
  let block_dim := dim3_3 16 16 1 in
  let grid_dim :=
    dim3_3 (wrap64 (wrap64 (height + x block_dim) - 1) / x block_dim)
           (wrap64 (wrap64 (width + y block_dim) - 1) / y block_dim)
           batch_size in
  Ok (with_data matrix_product
        (Kernel.host_launch grid_dim block_dim
           (Kernel.matrix_multiply (Z.of_nat (rank matrix_product)) height width shared_dim
              tensor1_strides tensor2_strides (data tensor1) (data tensor2))
           (data matrix_product))).

Definition relu (input : Tensor) : Tensor :=
  let output := Tensor_new (shape input) in
  with_data output
    (Kernel.host_launch (grid_1d (n_elements output)) block_1d
       (Kernel.relu (n_elements output) (data input)) (data output)).

Definition relu_d (input : Tensor) : Tensor :=
  let output := Tensor_new (shape input) in
  with_data output
    (Kernel.host_launch (grid_1d (n_elements output)) block_1d
       (Kernel.relu_d (n_elements output) (data input)) (data output)).

(** The friend [sum] launches the [relu_d] kernel with one thread. *)
Definition sum (input : Tensor) : Tensor :=
  let sum := Tensor_new (replicate (rank input) 1) in
  with_data sum
    (Kernel.host_launch (dim3_1 1) (dim3_1 1)
       (Kernel.relu_d (n_elements input) (data input)) (data sum)).

(** *** Gradients *)

Definition requires_gradients (h : heap) (t : Tensor) : Tensor * heap :=
  let '(p, h') := new h (mkBackward AccumulateGradients [] []) in
  (with_backward t (Some p), h').

Definition gradients (h : heap) (t : Tensor) : result Tensor :=
  match backward t with
  | None => Err NullNode
  | Some p =>
      node ← at_ h p;
      at_ (tensors node) 0
  end.

(** Invoking the node at address [p] on [gradients_] through its virtual
    call operator; [fuel] bounds the depth of nested invocations. *)
Fixpoint call (fuel : nat) (h : heap) (p : nat) (gradients_ : Tensor) : result heap :=
  match fuel with
  | O => Err OutOfFuel
  | S fuel' =>
      this ← at_ h p;
      match class this with
      | Backward_base => Ok h
      | AccumulateGradients =>
          Ok (<[p := mkBackward (class this) (tensors this ++ [gradients_]) (backwards this)]> h)
      | MultiplyBackward =>
          b0 ← at_ (backwards this) 0;
          h1 ← match b0 with
               | Some parent =>
                   t1 ← at_ (tensors this) 1;
                   '(g, h') ← operator_mul h gradients_ t1;
                   call fuel' h' parent g
               | None => Ok h
               end;
          this' ← at_ h1 p;
          b1 ← at_ (backwards this') 1;
          match b1 with
          | Some parent =>
              t0 ← at_ (tensors this') 0;
              '(g, h') ← operator_mul h1 gradients_ t0;
              call fuel' h' parent g
          | None => Ok h1
          end
      end
  end.

End Tensors.

Arguments Tensor : clear implicits.
Arguments Backward : clear implicits.

Abbreviation heap T := (list (Backward T)).

(** ** Vocabulary of the properties *)

(** The element count of a shape, as an unbounded integer. *)
Definition prod (s : list Z) : Z := foldr Z.mul 1 s.

(** Shapes of positive sizes whose element count fits the [int] index of
    the kernels. *)
Definition fits_launch (s : list Z) : Prop :=
  Forall (fun d => 0 < d) s /\ prod s < 2 ^ 31.

(** The exact sum of products [std::inner_product] accumulates. *)
Fixpoint dotZ (v1 v2 : list Z) : Z :=
  match v1, v2 with
  | s :: v1', i :: v2' => s * i + dotZ v1' v2'
  | _, _ => 0
  end.

(** The flat index of a multi-index [batch] into dimensions [bs]. *)
Fixpoint flat_index (bs batch : list Z) : Z :=
  match bs, batch with
  | _ :: bs', i :: batch' => i * prod bs' + flat_index bs' batch'
  | _, _ => 0
  end.

(** Coordinates within the sizes [dims]. *)
Definition valid_index (indices dims : list Z) : Prop :=
  Forall2 (fun i d => 0 <= i < d) indices dims.


(** Equality of addresses modulo [2^64]. *)
Definition eq64 (a b : Z) : Prop := wrap64 a = wrap64 b.

Section Vocabulary.
Context {T : Type} `{Scalar T}.

(** The invariant [len(shape) == len(strides) == rank] of the data
    model. *)
Definition consistent (t : Tensor T) : Prop :=
  length (shape t) = rank t /\ length (strides t) = rank t.

(** A tensor laid out as the constructor lays out its shape. *)
Definition dense (t : Tensor T) : Prop :=
  consistent t /\ strides t = (row_major (shape t)).1 /\
  length (data t) = length (data (Tensor_new (T := T) (shape t))).


(** The value a thread of a broadcasting kernel stores at [index]. *)
Definition cell_value (f : T -> T -> T) (rank_ : nat) (s1 s2 s : list Z)
    (t1 t2 : list (option T)) (index : Z) : option T :=
  match Kernel.get_indices index rank_ s1 s2 s with
  | Ok (i0, i1) => Kernel.lift2 f (Kernel.load t1 i0) (Kernel.load t2 i1)
  | Err _ => None
  end.


(** The element of [t] at a full coordinate vector, read through the
    strides of [t] as the subscript operator does. *)
Definition element (t : Tensor T) (indices : list Z) : option T :=
  match subscript t indices with
  | Ok c => c
  | Err _ => None
  end.




End Vocabulary.

(** ** Further operations *)

Section Factories.
Context {T : Type} `{Scalar T}.

(** [from_scalar]: [std::fill_n] writes [n_elements] values into a staging
    array of [size] bytes, which it overruns when [size] holds fewer. *)
Definition from_scalar (scalar : T) (shape_ : list Z) : result (Tensor T) :=
  let tensor := Tensor_new shape_ in
  if decide (Z.to_nat (n_elements tensor) <= length (data tensor))%nat
  then Ok (with_data tensor
             (imap (fun i c => if Z.of_nat i <? n_elements tensor then Some scalar else c)
                   (data tensor)))
  else Err OutOfRange.

End Factories.

(** ** Further vocabulary *)

(** The coordinates an operand is read at under the broadcast rule:
    coordinate 0 along every dimension in which the operand's size [mine]
    is the smaller one. *)
Fixpoint suppress (mine other coords : list Z) : list Z :=
  match mine, other, coords with
  | d1 :: mine', d2 :: other', c :: coords' =>
      (if d1 <? d2 then 0 else c) :: suppress mine' other' coords'
  | _, _, _ => []
  end.

(** Two entries of a list exchanged, as [transpose] exchanges them. *)
Definition exchange {A : Type} (i j : nat) (l : list A) : list A :=
  match l !! i, l !! j with
  | Some a, Some b => <[j := a]> (<[i := b]> l)
  | _, _ => l
  end.

Section FurtherVocabulary.
Context {T : Type} `{Scalar T}.

(** What a broadcasting operator with operator [f] leaves in [out] for the
    operands [a] and [b]. *)
Definition combines (f : T -> T -> T) (a b out : Tensor T) : Prop :=
  shape out = zip_with Z.max (shape a) (shape b) /\
  strides out = (row_major (shape out)).1 /\
  forall c : list Z, valid_index c (shape out) ->
    element out c
    = Kernel.lift2 f (element a (suppress (shape a) (shape b) c))
                     (element b (suppress (shape b) (shape a) c)).

(** The same when [b] has the higher rank: its trailing dimensions are
    read at coordinate 0. *)
Definition combines_leading (f : T -> T -> T) (a b out : Tensor T) : Prop :=
  shape out = zip_with Z.max (shape a) (shape b) /\
  strides out = (row_major (shape out)).1 /\
  forall c : list Z, valid_index c (shape out) ->
    element out c
    = Kernel.lift2 f (element a (suppress (shape a) (shape b) c))
        (element b (suppress (shape b) (shape a) c ++ replicate (rank b - rank a) 0)).

(** Invoking the node at [p] on each of the gradients [gs] in turn. *)
Definition call_each (fuel : nat) (h : heap T) (p : nat) (gs : list (Tensor T))
    : result (heap T) :=
  foldl (fun r g => h' ← r; call fuel h' p g) (Ok h) gs.

(** Every node of [h] is still in [h'], at its address, of the same class
    and with the same parents; its tensors are those it had, followed, for
    a leaf only, by further ones. *)
Definition grows (h h' : heap T) : Prop :=
  forall (q : nat) (n : Backward T), h !! q = Some n ->
    exists more : list (Tensor T),
      h' !! q = Some (mkBackward (class n) (tensors n ++ more) (backwards n)) /\
      (class n <> AccumulateGradients -> more = []).

(** A kernel whose launches give the same output buffer in whatever order
    the stores of the threads reach it. *)
Definition order_free (kernel : thread -> list (Z * option T)) : Prop :=
  forall (grid block : dim3) (out : list (option T)) (ws : list (Z * option T)),
    ws ≡ₚ threads grid block ≫= kernel ->
    Kernel.run out ws = Kernel.launch grid block kernel out.

(** Up to address [p], every parent a node refers to was created before
    the node. *)
Definition parents_precede (h : heap T) (p : nat) : Prop :=
  forall (q : nat) (n : Backward T), (q <= p)%nat -> h !! q = Some n ->
    forall (i r : nat), backwards n !! i = Some (Some r) -> (r < q)%nat.

End FurtherVocabulary.

(** ** Printing *)

Section Printing.
Context {T : Type} `{Scalar T}.

(** What [operator<<] sends to the stream, piece by piece. How the stream
    formats an element or a number is left open. *)
Inductive token : Type :=
| Text (s : string)
| Value (c : option T)          (* [out << tensor[indices]] *)
| Number (n : Z).

Definition newline : string := String (Ascii.ascii_of_nat 10) EmptyString.

(** [std::string(n, '[')] *)
Definition brackets (n : nat) : list token := replicate n (Text "[").

(** The inner loop of [operator<<] over [j = rank - 1, ..., 0], which
    advances [indices] to the next coordinate vector: [k] iterations
    remain, the loop variable is [k - 1]. *)
Fixpoint advance (k : nat) (t : Tensor T) (indices : list Z) (out : list token)
    : result (list Z * list token) :=
  match k with
  | O => Ok (indices, out)
  | S j =>
      index ← at_ indices j;
      dim ← at_ (shape t) j;
      if index <? to_int (dim - 1) then
        indices' ← set_ indices j (to_int (index + 1));
        Ok (indices', out ++ brackets (rank t - 1 - j))
      else
        indices' ← set_ indices j 0;
        advance j t indices' (out ++ [Text "]"])
  end.

(** The outer loop, with [n] iterations left. *)
Fixpoint print_elements (n : nat) (t : Tensor T) (indices : list Z) (out : list token)
    : result (list Z * list token) :=
  match n with
  | O => Ok (indices, out)
  | S n' =>
      scalar ← subscript t indices;
      '(indices', out') ← advance (rank t) t indices (out ++ [Value scalar; Text ", "]);
      print_elements n' t indices' out'
  end.

(** [operator<<] on the stream contents [out]; the loop counter is an
    [int] compared with [n_elements]. *)
Definition operator_lshift (out : list token) (t : Tensor T) : result (list token) :=
  let indices := replicate (rank t) 0 in
  '(_, out1) ← print_elements (Z.to_nat (n_elements t)) t indices (out ++ brackets (rank t));
  Ok (out1 ++ [Text newline; Text "shape = ("]
           ++ (shape t ≫= fun dim => [Number (wrap64 dim); Text ", "])
           ++ [Text "), "; Text "rank = "; Number (Z.of_nat (rank t)); Text ", ";
               Text "strides = ("]
           ++ (strides t ≫= fun stride => [Number stride; Text ", "])
           ++ [Text "), "; Text "n_elements = "; Number (n_elements t); Text ", ";
               Text "size = "; Number (size t); Text ", "; Text newline]).

(** The elements on a stream, in the order printed. *)
Definition values (out : list token) : list (option T) :=
  omap (fun tok => match tok with Value c => Some c | _ => None end) out.

(** Opening brackets minus closing brackets. *)
Definition weight (tok : token) : Z :=
  match tok with
  | Text s => if decide (s = "[") then 1 else if decide (s = "]") then -1 else 0
  | _ => 0
  end.

Definition depth (out : list token) : Z := foldr (fun tok d => weight tok + d) 0 out.

End Printing.

Arguments token : clear implicits.

(** ** Integer scalars

    The instance used to evaluate the engine on concrete tensors: exact
    integer arithmetic, [/] truncating as in C++. *)

#[global] Program Instance Z_Scalar : Scalar Z := {|
  s_zero := 0;
  s_one := 1;
  s_add := Z.add;
  s_sub := Z.sub;
  s_mul := Z.mul;
  s_div := Z.quot;
  s_neg := Z.opp;
  s_pos := fun v => 0 <? v;
  s_sizeof := 4
|}.
Next Obligation. Proof. lia. Qed.

(** ** Example tensors *)

Definition dense_of (values : list Z) (shape_ : list Z) : Tensor Z :=
  with_data (Tensor_new shape_) (Some <$> values).

Definition m1234 : Tensor Z := dense_of [1; 2; 3; 4] [2; 2].
Definition m5678 : Tensor Z := dense_of [5; 6; 7; 8] [2; 2].
Definition ones_2x2 : Tensor Z := dense_of [1; 1; 1; 1] [2; 2].

(** A [3 x 2] batch of [1 x 2] matrices seen through [transpose(0, 1)] of
    a dense [2 x 3 x 1 x 2] tensor, and a dense [3 x 2] batch of [2 x 1]
    matrices of ones. *)
Definition batch_2x3 : Tensor Z := dense_of [0; 1; 2; 3; 4; 5; 6; 7; 8; 9; 10; 11] [2; 3; 1; 2].
Definition batch_view : Tensor Z :=
  {| data := data batch_2x3; shape := [3; 2; 1; 2]; rank := 4; strides := [2; 6; 2; 1];
     n_elements := 12; size := 48; backward := None |}.

(** A [2 x 3 x 2] view transposing the two trailing dimensions of a dense
    [2 x 2 x 3] tensor. *)
Definition trailing_view : Tensor Z :=
  {| data := Some <$> [1; 2; 3; 4; 5; 6; 7; 8; 9; 10; 11; 12]; shape := [2; 3; 2]; rank := 3;
     strides := [6; 1; 3]; n_elements := 12; size := 48; backward := None |}.

(** [m1234] seen through [transpose(0, 1)], a column and a row. *)
Definition m1234_T : Tensor Z :=
  {| data := data m1234; shape := [2; 2]; rank := 2; strides := [1; 2];
     n_elements := 4; size := 16; backward := None |}.
Definition column_12 : Tensor Z := dense_of [1; 2] [2; 1].
Definition row_123 : Tensor Z := dense_of [10; 20; 30] [1; 3].
Definition vector_12 : Tensor Z := dense_of [1; 2] [2].

(** A heap holding one gradient leaf. *)
Definition one_leaf : list (Backward Z) := [mkBackward AccumulateGradients [] []].


(** * Properties *)

(** ** Machine integers *)

Lemma wrap64_range (a : Z) : 0 <= wrap64 a < 2 ^ 64.
Proof. unfold wrap64. apply Z.mod_pos_bound. lia. Qed.

Lemma wrap64_small (a : Z) : 0 <= a < 2 ^ 64 -> wrap64 a = a.
Proof. intros Ha. unfold wrap64. by apply Z.mod_small. Qed.

Lemma wrap64_idem (a : Z) : wrap64 (wrap64 a) = wrap64 a.
Proof. apply wrap64_small, wrap64_range. Qed.

Lemma wrap64_add_l (a b : Z) : wrap64 (wrap64 a + b) = wrap64 (a + b).
Proof. unfold wrap64. by rewrite Zplus_mod_idemp_l. Qed.


Lemma wrap64_mul_l (a b : Z) : wrap64 (wrap64 a * b) = wrap64 (a * b).
Proof. unfold wrap64. by rewrite Zmult_mod_idemp_l. Qed.

Lemma wrap64_mul_r (a b : Z) : wrap64 (a * wrap64 b) = wrap64 (a * b).
Proof. unfold wrap64. by rewrite Zmult_mod_idemp_r. Qed.

Lemma wrap32_small (a : Z) : 0 <= a < 2 ^ 32 -> wrap32 a = a.
Proof. intros Ha. unfold wrap32. by apply Z.mod_small. Qed.

Lemma to_int_small (a : Z) : - 2 ^ 31 <= a < 2 ^ 31 -> to_int a = a.
Proof. intros Ha. unfold to_int. rewrite Z.mod_small; lia. Qed.



(** ** Host results *)

Lemma at_Ok {A : Type} (v : list A) (i : nat) (a : A) : v !! i = Some a -> at_ v i = Ok a.
Proof. intros E. unfold at_. by rewrite E. Qed.

Lemma at_Ok_inv {A : Type} (v : list A) (i : nat) (a : A) : at_ v i = Ok a -> v !! i = Some a.
Proof. unfold at_. destruct (v !! i); congruence. Qed.

Lemma set_Ok {A : Type} (v : list A) (i : nat) (a : A) :
  (i < length v)%nat -> set_ v i a = Ok (<[i := a]> v).
Proof. intros Hi. unfold set_. by rewrite decide_True. Qed.

Lemma take_Ok {A : Type} (v : list A) (n : nat) :
  (n <= length v)%nat -> take_ v n = Ok (take n v).
Proof. intros Hn. unfold take_. by rewrite decide_True. Qed.

Section StrideProperties.
Context {T : Type} `{Scalar T}.

(** ** Row-major strides *)

Lemma row_major_length (s : list Z) : length (row_major s).1 = length s.
Proof.
  induction s as [|d s IH]; [done|].
  simpl. destruct (row_major s) as [st k]. simpl in *. by rewrite IH.
Qed.

(** The stride of dimension [i] is the running stride left by the
    dimensions after [i]. *)
Lemma row_major_lookup (s : list Z) (i : nat) :
  (i < length s)%nat ->
  (row_major s).1 !! i = Some (row_major (drop (S i) s)).2.
Proof.
  revert i. induction s as [|d s IH]; intros i Hi; simpl in Hi; [lia|].
  simpl. destruct (row_major s) as [st k] eqn:E. destruct i as [|i].
  - simpl. rewrite drop_0. by rewrite E.
  - simpl. simpl in IH. apply IH. lia.
Qed.

Lemma row_major_cons (d : Z) (s : list Z) :
  row_major (d :: s) = ((row_major s).2 :: (row_major s).1,
                        wrap64 ((row_major s).2 * wrap64 d)).
Proof. simpl. by destruct (row_major s). Qed.

Lemma row_major_nonneg (s : list Z) : 0 <= (row_major s).2 < 2 ^ 64.
Proof.
  destruct s as [|d s]; [simpl; lia|].
  rewrite row_major_cons. simpl. apply wrap64_range.
Qed.

Lemma drop_S_lookup {A : Type} (l : list A) (i : nat) (a : A) :
  l !! i = Some a -> drop i l = a :: drop (S i) l.
Proof. intros E. by rewrite (drop_S l a i E). Qed.

(** ** Transposed views *)

Lemma swap_swap {A : Type} (l : list A) (i j : nat) (a b : A) :
  l !! i = Some a -> l !! j = Some b ->
  <[j := b]> (<[i := a]> (<[j := a]> (<[i := b]> l))) = l.
Proof.
  intros Ei Ej.
  pose proof (lookup_lt_Some _ _ _ Ei) as Hi.
  pose proof (lookup_lt_Some _ _ _ Ej) as Hj.
  apply list_eq. intros k.
  destruct (decide (k = j)) as [->|Hkj].
  - rewrite list_lookup_insert_eq; [done|]. by rewrite !length_insert.
  - rewrite list_lookup_insert_ne by done.
    destruct (decide (k = i)) as [->|Hki].
    + rewrite list_lookup_insert_eq; [done|]. by rewrite !length_insert.
    + by rewrite !list_lookup_insert_ne by done.
Qed.

Lemma transpose_Ok (t : Tensor T) (i j : nat) (di dj si sj : Z) :
  shape t !! i = Some di -> shape t !! j = Some dj ->
  strides t !! i = Some si -> strides t !! j = Some sj ->
  transpose t i j =
    Ok {| data := data t; shape := <[j := di]> (<[i := dj]> (shape t)); rank := rank t;
          strides := <[j := si]> (<[i := sj]> (strides t));
          n_elements := n_elements t; size := size t; backward := backward t |}.
Proof.
  intros Edi Edj Esi Esj. unfold transpose.
  pose proof (lookup_lt_Some _ _ _ Edi). pose proof (lookup_lt_Some _ _ _ Edj).
  pose proof (lookup_lt_Some _ _ _ Esi). pose proof (lookup_lt_Some _ _ _ Esj).
  rewrite (at_Ok _ _ _ Edj). simpl.
  rewrite set_Ok by done. simpl.
  rewrite (at_Ok _ _ _ Edi). simpl.
  rewrite set_Ok by (by rewrite length_insert). simpl.
  rewrite (at_Ok _ _ _ Esj). simpl.
  rewrite set_Ok by done. simpl.
  rewrite (at_Ok _ _ _ Esi). simpl.
  rewrite set_Ok by (by rewrite length_insert). done.
Qed.

End StrideProperties.

Section ShapeClaims.
Context {T : Type} `{Scalar T}.

(** C8. For a non-empty shape [s] of positive sizes the constructor gives
    the last dimension stride 1 and every other dimension [i] the stride
    [strides[i+1] * s[i+1]]: the [size_t] product of the source, which is
    the exact product whenever that is below [2^64]. *)
Theorem strides_row_major (s : list Z) :
  s <> [] -> Forall (fun d => 0 < d) s ->
  let t := Tensor_new (T := T) s in
  strides t !! (rank t - 1)%nat = Some 1 /\
  forall i : nat, (i + 1 < rank t)%nat ->
    exists a b d : Z,
      strides t !! i = Some a /\ strides t !! (i + 1)%nat = Some b /\
      s !! (i + 1)%nat = Some d /\
      a = wrap64 (b * d) /\ (b * d < 2 ^ 64 -> a = b * d).
Proof.
  intros Hne Hpos. simpl. split.
  - rewrite row_major_lookup by (destruct s; [done | simpl; lia]).
    replace (S (length s - 1)) with (length s) by (destruct s; [done | simpl; lia]).
    by rewrite drop_all.
  - intros i Hi.
    destruct (lookup_lt_is_Some_2 s (i + 1)) as [d Ed]; [lia|].
    exists (row_major (drop (S i) s)).2, (row_major (drop (S (i + 1)) s)).2, d.
    split; [apply row_major_lookup; lia|].
    split; [apply row_major_lookup; lia|].
    split; [done|].
    replace (S i) with (i + 1)%nat by lia.
    rewrite (drop_S_lookup _ _ _ Ed), row_major_cons. simpl.
    rewrite wrap64_mul_r. split; [done|].
    intros Hlt. apply wrap64_small.
    pose proof (row_major_nonneg (drop (S (i + 1)) s)) as Hb.
    assert (0 < d) by (rewrite Forall_lookup in Hpos; by apply (Hpos _ _ Ed)).
    split; [|done]. apply Z.mul_nonneg_nonneg; lia.
Qed.

(** C9. For valid dimensions [i] and [j] of a tensor whose shape and
    strides have [rank] entries, transposing twice along [(i, j)] gives
    back the shape and the strides of the tensor. *)
Theorem transpose_transpose (t : Tensor T) (i j : nat) :
  length (shape t) = rank t -> length (strides t) = rank t ->
  (i < rank t)%nat -> (j < rank t)%nat ->
  exists t1 t2 : Tensor T,
    transpose t i j = Ok t1 /\ transpose t1 i j = Ok t2 /\
    shape t2 = shape t /\ strides t2 = strides t.
Proof.
  intros Hsh Hst Hi Hj.
  destruct (lookup_lt_is_Some_2 (shape t) i) as [di Edi]; [lia|].
  destruct (lookup_lt_is_Some_2 (shape t) j) as [dj Edj]; [lia|].
  destruct (lookup_lt_is_Some_2 (strides t) i) as [si Esi]; [lia|].
  destruct (lookup_lt_is_Some_2 (strides t) j) as [sj Esj]; [lia|].
  eexists _, _. split; [by apply (transpose_Ok t i j di dj si sj)|].
  assert (forall (l : list Z) a b, l !! i = Some a -> l !! j = Some b ->
            <[j := a]> (<[i := b]> l) !! i = Some (if decide (i = j) then a else b) /\
            <[j := a]> (<[i := b]> l) !! j = Some a) as Hsw.
  { intros l a b Ea Eb.
    pose proof (lookup_lt_Some _ _ _ Ea). pose proof (lookup_lt_Some _ _ _ Eb).
    split.
    - case_decide as Hij.
      + subst j. rewrite list_lookup_insert_eq; [done | by rewrite length_insert].
      + rewrite list_lookup_insert_ne by done. by rewrite list_lookup_insert_eq.
    - rewrite list_lookup_insert_eq; [done | by rewrite length_insert]. }
  destruct (Hsw _ _ _ Edi Edj) as [E1 E2]. destruct (Hsw _ _ _ Esi Esj) as [E3 E4].
  split; [by eapply transpose_Ok|]. simpl.
  case_decide as Hij.
  - subst j. simplify_eq. rewrite !list_insert_insert_eq.
    split; by apply list_insert_id.
  - split; by apply swap_swap.
Qed.

End ShapeClaims.

(** ** Backward nodes of operator results *)

(** Case analysis on a host computation that returned [Ok]. *)
Ltac ok_inv H :=
  repeat match type of H with
    | Err _ = Ok _ => discriminate H
    | Ok _ = Ok _ => injection H as H
    | mbind _ ?e = Ok _ =>
        let E := fresh "E" in destruct e eqn:E; simpl in H; [|discriminate H]
    | (if ?c then _ else _) = Ok _ => destruct c eqn:?; simpl in H
    | (let '(_, _) := ?p in _) = Ok _ => destruct p eqn:?; simpl in H
    | (match ?p with _ => _ end) = Ok _ => destruct p eqn:?; simpl in H
    end.

Section BackwardNodes.
Context {T : Type} `{Scalar T}.

Lemma prepare_broadcast_fresh (t1 t2 : Tensor T) s1 s2 s out :
  prepare_broadcast t1 t2 = Ok (s1, s2, s, out) ->
  exists shape_, out = Tensor_new shape_.
Proof.
  unfold prepare_broadcast. intros E. ok_inv E. simplify_eq. by eexists.
Qed.

Lemma broadcast_op_backward kernel (t1 t2 c : Tensor T) :
  broadcast_op kernel t1 t2 = Ok c -> backward c = None.
Proof.
  unfold broadcast_op. intros E. ok_inv E. subst c.
  match goal with E : prepare_broadcast _ _ = Ok _ |- _ =>
    apply prepare_broadcast_fresh in E as [? ->] end.
  done.
Qed.

Lemma mm_backward (t1 t2 c : Tensor T) : mm t1 t2 = Ok c -> backward c = None.
Proof.
  unfold mm. intros E. ok_inv E. by subst c.
Qed.

Lemma gradients_null (h : heap T) (c : Tensor T) :
  backward c = None -> gradients h c = Err NullNode.
Proof. intros E. unfold gradients. by rewrite E. Qed.

End BackwardNodes.

(** ** The broadcast resolver *)

Section Broadcast.
Context {T : Type} `{Scalar T}.

Lemma Tensor_new_consistent (s : list Z) : consistent (Tensor_new s).
Proof. split; simpl; [done | apply row_major_length]. Qed.

(** The loop from dimension [i] on: earlier entries of the three arrays
    are kept, and each later entry follows the three-way rule. *)
Lemma broadcast_loop_spec (t1 t2 : Tensor T) (k : nat) :
  forall (i : nat) (sh ts1 ts2 : list Z),
    (i + k)%nat = rank t1 ->
    length (shape t1) = rank t1 -> length (strides t1) = rank t1 ->
    (rank t1 <= length (shape t2))%nat -> (rank t1 <= length (strides t2))%nat ->
    length sh = rank t1 -> length ts1 = rank t1 -> (rank t1 <= length ts2)%nat ->
    exists sh' ts1' ts2',
      broadcast_loop k i t1 t2 sh ts1 ts2 = Ok (sh', ts1', ts2') /\
      length sh' = length sh /\ length ts1' = length ts1 /\ length ts2' = length ts2 /\
      (forall j : nat, (j < i)%nat ->
         sh' !! j = sh !! j /\ ts1' !! j = ts1 !! j /\ ts2' !! j = ts2 !! j) /\
      (forall (j : nat) (d1 d2 st1 st2 o0 o1 o2 : Z), (i <= j)%nat ->
         shape t1 !! j = Some d1 -> shape t2 !! j = Some d2 ->
         strides t1 !! j = Some st1 -> strides t2 !! j = Some st2 ->
         sh !! j = Some o0 -> ts1 !! j = Some o1 -> ts2 !! j = Some o2 ->
         sh' !! j = Some (if d1 <? d2 then d2 else o0) /\
         ts1' !! j = Some (if d1 <? d2 then o1 else st1) /\
         ts2' !! j = Some (if d2 <? d1 then o2 else st2)).
Proof.
  induction k as [|k IH]; intros i sh ts1 ts2 Hik Hs1 Hst1 Hs2 Hst2 Hsh Hts1 Hts2.
  - exists sh, ts1, ts2. repeat split; try done.
    all: exfalso; assert (j < length (shape t1))%nat by (by eapply lookup_lt_Some); lia.
  - destruct (lookup_lt_is_Some_2 (shape t1) i) as [d1 Ed1]; [lia|].
    destruct (lookup_lt_is_Some_2 (shape t2) i) as [d2 Ed2]; [lia|].
    destruct (lookup_lt_is_Some_2 (strides t1) i) as [st1 Est1]; [lia|].
    destruct (lookup_lt_is_Some_2 (strides t2) i) as [st2 Est2]; [lia|].
    cbn [broadcast_loop].
    rewrite (at_Ok _ _ _ Ed1), (at_Ok _ _ _ Ed2). cbn [mbind result_bind].
    set (sh1 := if d1 <? d2 then <[i := d2]> sh else sh).
    set (ts1_1 := if d1 <? d2 then ts1 else <[i := st1]> ts1).
    set (ts2_1 := if d2 <? d1 then ts2 else <[i := st2]> ts2).
    destruct (IH (S i) sh1 ts1_1 ts2_1) as (sh' & ts1' & ts2' & E & L0 & L1 & L2 & Hlow & Hhigh);
      try done; try lia.
    { unfold sh1. destruct (d1 <? d2); by rewrite ?length_insert. }
    { unfold ts1_1. destruct (d1 <? d2); by rewrite ?length_insert. }
    { unfold ts2_1. destruct (d2 <? d1); by rewrite ?length_insert. }
    exists sh', ts1', ts2'.
    assert (length sh1 = length sh) as Lsh
      by (unfold sh1; destruct (d1 <? d2); by rewrite ?length_insert).
    assert (length ts1_1 = length ts1) as Lt1
      by (unfold ts1_1; destruct (d1 <? d2); by rewrite ?length_insert).
    assert (length ts2_1 = length ts2) as Lt2
      by (unfold ts2_1; destruct (d2 <? d1); by rewrite ?length_insert).
    split; [|split; [lia|split; [lia|split; [lia|split]]]].
    + rewrite <- E. unfold sh1, ts1_1, ts2_1.
      destruct (Z.eqb_spec d1 d2) as [->|Hne].
      * rewrite Z.ltb_irrefl.
        rewrite (at_Ok _ _ _ Est1). cbn [mbind result_bind].
        rewrite set_Ok by lia. cbn [mbind result_bind].
        rewrite (at_Ok _ _ _ Est2). cbn [mbind result_bind].
        rewrite set_Ok by lia. done.
      * destruct (Z.gtb_spec d1 d2) as [Hgt|Hle].
        -- rewrite (proj2 (Z.ltb_ge d1 d2)) by lia.
           rewrite (proj2 (Z.ltb_lt d2 d1)) by lia.
           rewrite (at_Ok _ _ _ Est1). cbn [mbind result_bind].
           rewrite set_Ok by lia. done.
        -- rewrite (proj2 (Z.ltb_lt d1 d2)) by lia.
           rewrite (proj2 (Z.ltb_ge d2 d1)) by lia.
           rewrite (at_Ok _ _ _ Est2). cbn [mbind result_bind].
           rewrite set_Ok by lia. cbn [mbind result_bind].
           rewrite set_Ok by lia. done.
    + intros j Hj. destruct (Hlow j) as (-> & -> & ->); [lia|].
      unfold sh1, ts1_1, ts2_1.
      repeat split; repeat case_match; by rewrite ?list_lookup_insert_ne by lia.
    + intros j e1 e2 u1 u2 o0 o1 o2 Hj Ee1 Ee2 Eu1 Eu2 Eo0 Eo1 Eo2.
      destruct (decide (j = i)) as [->|Hne].
      * simplify_eq. destruct (Hlow i) as (-> & -> & ->); [lia|].
        unfold sh1, ts1_1, ts2_1.
        repeat split; repeat case_match;
          rewrite ?list_lookup_insert_eq by lia; done.
      * apply Hhigh; try done; try lia.
        all: unfold sh1, ts1_1, ts2_1; repeat case_match;
          by rewrite ?list_lookup_insert_ne by lia.
Qed.

Lemma prepare_broadcast_Ok (t1 t2 : Tensor T) :
  consistent t1 -> consistent t2 -> (rank t1 <= rank t2)%nat ->
  exists sh ts1 ts2,
    prepare_broadcast t1 t2
      = Ok (ts1, take (rank t1) ts2, (row_major sh).1, Tensor_new sh) /\
    length sh = rank t1 /\ length ts1 = rank t1 /\ length ts2 = rank t2 /\
    forall (j : nat) (d1 d2 st1 st2 : Z),
      shape t1 !! j = Some d1 -> shape t2 !! j = Some d2 ->
      strides t1 !! j = Some st1 -> strides t2 !! j = Some st2 ->
      sh !! j = Some (if d1 <? d2 then d2 else d1) /\
      ts1 !! j = Some (if d1 <? d2 then 0 else st1) /\
      ts2 !! j = Some (if d2 <? d1 then 0 else st2).
Proof.
  intros [Hs1 Hst1] [Hs2 Hst2] Hr.
  destruct (broadcast_loop_spec t1 t2 (rank t1) 0 (shape t1)
              (replicate (rank t1) 0) (replicate (rank t2) 0))
    as (sh & ts1 & ts2 & E & L0 & L1 & L2 & _ & Hrule);
    rewrite ?length_replicate; try done; try lia.
  rewrite length_replicate in L1, L2.
  exists sh, ts1, ts2. split; [|split; [lia|split; [lia|split; [lia|]]]].
  - unfold prepare_broadcast. rewrite E. cbn [mbind result_bind].
    cbn [rank strides Tensor_new].
    rewrite !take_Ok by (rewrite ?row_major_length; lia). cbn [mbind result_bind].
    rewrite (take_ge (row_major sh).1) by (rewrite row_major_length; lia).
    rewrite (take_ge ts1) by lia. by rewrite L0, Hs1.
  - intros j d1 d2 st1 st2 E1 E2 E3 E4.
    assert (j < rank t1)%nat by (rewrite <- Hs1; by eapply lookup_lt_Some).
    eapply Hrule; try done; try lia.
    all: apply lookup_replicate_2; lia.
Qed.

(** C2. For tensors of equal rank the resolver keeps both real strides
    where the shapes agree; where they differ the operand with the larger
    size keeps its stride, the other gets stride 0, and the output takes
    the larger size. For shapes [2,3] and [1,3], in either order, the
    output shape is [2,3] and every output index reads the size-1 operand
    at its column alone, so that its single row serves both output rows. *)
Theorem broadcast_rule :
  (forall t1 t2 : Tensor T,
     consistent t1 -> consistent t2 -> rank t1 = rank t2 ->
     exists s1 s2 s out,
       prepare_broadcast t1 t2 = Ok (s1, s2, s, out) /\
       forall (i : nat) (d1 d2 st1 st2 : Z),
         shape t1 !! i = Some d1 -> shape t2 !! i = Some d2 ->
         strides t1 !! i = Some st1 -> strides t2 !! i = Some st2 ->
         (d1 = d2 ->
            s1 !! i = Some st1 /\ s2 !! i = Some st2 /\ shape out !! i = Some d1) /\
         (d1 > d2 ->
            s1 !! i = Some st1 /\ s2 !! i = Some 0 /\ shape out !! i = Some d1) /\
         (d1 < d2 ->
            s1 !! i = Some 0 /\ s2 !! i = Some st2 /\ shape out !! i = Some d2)) /\
  (forall t1 t2 : Tensor T,
     shape t1 = [2; 3] -> strides t1 = [3; 1] -> rank t1 = 2%nat ->
     shape t2 = [1; 3] -> strides t2 = [3; 1] -> rank t2 = 2%nat ->
     exists out out',
       prepare_broadcast t1 t2 = Ok ([3; 1], [0; 1], [3; 1], out) /\
       prepare_broadcast t2 t1 = Ok ([0; 1], [3; 1], [3; 1], out') /\
       shape out = [2; 3] /\ shape out' = [2; 3] /\
       forall index : Z, 0 <= index < 6 ->
         Kernel.get_indices index (rank out) [3; 1] [0; 1] [3; 1]
           = Ok (index, index mod 3) /\
         Kernel.get_indices index (rank out') [0; 1] [3; 1] [3; 1]
           = Ok (index mod 3, index)).
Proof.
  split.
  - intros t1 t2 C1 C2 Hr.
    destruct (prepare_broadcast_Ok t1 t2) as (sh & ts1 & ts2 & E & L0 & L1 & L2 & Hrule);
      try done; try lia.
    exists ts1, (take (rank t1) ts2), (row_major sh).1, (Tensor_new sh).
    split; [done|]. rewrite take_ge by lia.
    intros i d1 d2 st1 st2 E1 E2 E3 E4.
    destruct (Hrule i d1 d2 st1 st2) as (R0 & R1 & R2); try done.
    cbn [shape Tensor_new]. rewrite R0, R1, R2.
    split; [|split]; intros Hd.
    all: rewrite ?(proj2 (Z.ltb_ge d1 d2)) by lia; rewrite ?(proj2 (Z.ltb_ge d2 d1)) by lia;
      rewrite ?(proj2 (Z.ltb_lt d1 d2)) by lia; rewrite ?(proj2 (Z.ltb_lt d2 d1)) by lia;
      done.
  - intros t1 t2 Es1 Est1 Er1 Es2 Est2 Er2.
    exists (Tensor_new [2; 3]), (Tensor_new [2; 3]).
    split; [|split; [|split; [done|split; [done|]]]].
    + unfold prepare_broadcast. rewrite Er1, Er2.
      cbn [broadcast_loop]. rewrite Es1, Es2, Est1, Est2. reflexivity.
    + unfold prepare_broadcast. rewrite Er1, Er2.
      cbn [broadcast_loop]. rewrite Es1, Es2, Est1, Est2. reflexivity.
    + intros index Hi.
      assert (index = 0 \/ index = 1 \/ index = 2 \/ index = 3 \/ index = 4 \/ index = 5)
        as Hcase by lia.
      destruct Hcase as [->|[->|[->|[->|[->| ->]]]]]; split; reflexivity.
Qed.

End Broadcast.

(** ** Dense layouts without wrap-around *)

Lemma prod_pos (s : list Z) : Forall (fun d => 0 < d) s -> 0 < prod s.
Proof.
  induction 1 as [|d s Hd _ IH]; simpl; [lia|]. by apply Z.mul_pos_pos.
Qed.

Lemma prod_app (s1 s2 : list Z) : prod (s1 ++ s2) = prod s1 * prod s2.
Proof. induction s1 as [|d s1 IH]; simpl; [lia|]. rewrite IH. lia. Qed.

Lemma prod_cons_le (d : Z) (s : list Z) :
  0 < d -> Forall (fun d => 0 < d) s -> prod s <= prod (d :: s) /\ d <= prod (d :: s).
Proof.
  intros Hd Hs. pose proof (prod_pos s Hs).
  change (prod (d :: s)) with (d * prod s). nia.
Qed.

Lemma prod_drop_le (s : list Z) (i : nat) :
  Forall (fun d => 0 < d) s -> 0 < prod (drop i s) <= prod s.
Proof.
  intros Hs. rewrite <- (take_drop i s) at 3. rewrite prod_app.
  pose proof (prod_pos (take i s) (Forall_take _ _ _ Hs)).
  pose proof (prod_pos (drop i s) (Forall_drop _ _ _ Hs)). nia.
Qed.

Section Dense.
Context {T : Type} `{Scalar T}.

Lemma row_major_exact (s : list Z) :
  Forall (fun d => 0 < d) s -> prod s < 2 ^ 64 -> (row_major s).2 = prod s.
Proof.
  induction 1 as [|d s Hd Hs IH]; intros Hlt; [done|].
  rewrite row_major_cons. cbn [snd].
  destruct (prod_cons_le d s Hd Hs) as [Hle Hle']. pose proof (prod_pos s Hs).
  change (prod (d :: s)) with (d * prod s) in *.
  rewrite IH by lia. rewrite wrap64_mul_r.
  rewrite wrap64_small; lia.
Qed.

Lemma n_elements_exact (s : list Z) :
  Forall (fun d => 0 < d) s -> prod s < 2 ^ 64 ->
  n_elements (Tensor_new (T := T) s) = prod s.
Proof.
  intros Hs Hlt. cbn [n_elements Tensor_new].
  enough (forall acc, 0 <= acc -> acc * prod s < 2 ^ 64 ->
            foldl (fun acc d => wrap64 (acc * wrap64 d)) acc s = acc * prod s) as Hgen.
  { rewrite Hgen; lia. }
  clear Hlt. induction Hs as [|d s Hd Hs IH]; intros acc Hacc Hlt; simpl; [lia|].
  pose proof (prod_pos s Hs). rewrite wrap64_mul_r.
  change (prod (d :: s)) with (d * prod s) in *.
  rewrite wrap64_small by nia.
  rewrite IH; [lia | lia | lia].
Qed.

Lemma cudaMalloc_cells (n : Z) :
  0 <= n < 2 ^ 32 ->
  cudaMalloc (T := T) (wrap64 (n * s_sizeof)) = replicate (Z.to_nat n) None.
Proof.
  intros Hn. pose proof s_sizeof_range as Hsz. unfold cudaMalloc.
  rewrite wrap64_small by nia. by rewrite Z.div_mul by lia.
Qed.

Lemma Tensor_new_data (s : list Z) :
  Forall (fun d => 0 < d) s -> prod s < 2 ^ 32 ->
  data (Tensor_new (T := T) s) = replicate (Z.to_nat (prod s)) None.
Proof.
  intros Hs Hlt. pose proof (prod_pos s Hs).
  pose proof (n_elements_exact s Hs ltac:(lia)) as En.
  cbn [data Tensor_new n_elements] in *. rewrite En. apply cudaMalloc_cells. lia.
Qed.



End Dense.

(** ** The reduction *)

Section Reduction.
Context {T : Type} `{Scalar T}.

Lemma prod_ones (r : nat) : prod (replicate r 1) = 1.
Proof.
  induction r as [|r IH]; [done|].
  cbn [replicate]. change (1 * prod (replicate r 1) = 1). lia.
Qed.

(** What the public [sum] computes for every input: the shape is 1 in
    every dimension, and the one element is [1] or [0] according to the
    sign of the first element of the input, as the [relu_d] kernel it
    launches stores it. *)
Lemma sum_is_relu_d_of_first (input : Tensor T) :
  shape (sum input) = replicate (rank input) 1 /\
  rank (sum input) = rank input /\
  data (sum input)
  = [if 0 <? n_elements input
     then Kernel.lift1 (fun v => if s_pos v then s_one else s_zero)
                       (Kernel.load (data input) 0)
     else None].
Proof.
  split; [done|]. split; [apply length_replicate|].
  unfold sum. cbn [data with_data].
  rewrite Tensor_new_data; [|by apply Forall_replicate | by rewrite prod_ones].
  rewrite prod_ones. unfold Kernel.host_launch.
  change (Kernel.accepted (dim3_1 1) (dim3_1 1)) with true. cbv iota.
  unfold Kernel.launch.
  change (threads (dim3_1 1) (dim3_1 1))
    with [Thread (Dim3 0 0 0) (Dim3 1 1 1) (Dim3 0 0 0)].
  rewrite bind_singleton. unfold Kernel.relu_d.
  change (to_int (Kernel.global_x (Thread (Dim3 0 0 0) (Dim3 1 1 1) (Dim3 0 0 0)))) with 0.
  change (wrap64 0) with 0.
  by destruct (0 <? n_elements input).
Qed.

End Reduction.

(** ** Launches *)

Lemma elem_of_threads (grid block : dim3) (t : thread) :
  t ∈ threads grid block <->
  blockDim t = block /\
  0 <= x (blockIdx t) < x grid /\ 0 <= y (blockIdx t) < y grid /\
  0 <= z (blockIdx t) < z grid /\
  0 <= x (threadIdx t) < x block /\ 0 <= y (threadIdx t) < y block /\
  0 <= z (threadIdx t) < z block.
Proof.
  unfold threads. split.
  - intros Ht.
    apply list_elem_of_bind in Ht as (bz & Ht & ?%elem_of_seqZ).
    apply list_elem_of_bind in Ht as (by_ & Ht & ?%elem_of_seqZ).
    apply list_elem_of_bind in Ht as (bx & Ht & ?%elem_of_seqZ).
    apply list_elem_of_bind in Ht as (tz & Ht & ?%elem_of_seqZ).
    apply list_elem_of_bind in Ht as (ty & Ht & ?%elem_of_seqZ).
    apply list_elem_of_bind in Ht as (tx & Ht & ?%elem_of_seqZ).
    apply list_elem_of_singleton in Ht as ->. simpl. repeat split; lia.
  - destruct t as [[bx by_ bz] bd [tx ty tz]]. simpl. intros (-> & ? & ? & ? & ? & ? & ?).
    apply list_elem_of_bind. exists bz. split; [|apply elem_of_seqZ; lia].
    apply list_elem_of_bind. exists by_. split; [|apply elem_of_seqZ; lia].
    apply list_elem_of_bind. exists bx. split; [|apply elem_of_seqZ; lia].
    apply list_elem_of_bind. exists tz. split; [|apply elem_of_seqZ; lia].
    apply list_elem_of_bind. exists ty. split; [|apply elem_of_seqZ; lia].
    apply list_elem_of_bind. exists tx. split; [|apply elem_of_seqZ; lia].
    by apply list_elem_of_singleton.
Qed.

Section Launch.
Context {T : Type} `{Scalar T}.

Lemma store_length (p : list (option T)) (i : Z) (v : option T) :
  length (Kernel.store p i v) = length p.
Proof. unfold Kernel.store. case_match; by rewrite ?length_insert. Qed.

Lemma run_snoc (out : list (option T)) (ws : list (Z * option T)) (w : Z * option T) :
  Kernel.run out (ws ++ [w]) = Kernel.store (Kernel.run out ws) w.1 w.2.
Proof. unfold Kernel.run. by rewrite foldl_snoc. Qed.

Lemma run_length (out : list (option T)) (ws : list (Z * option T)) :
  length (Kernel.run out ws) = length out.
Proof.
  induction ws as [|w ws IH] using rev_ind; [done|].
  by rewrite run_snoc, store_length.
Qed.

(** A cell that some thread stores to, all stores to it carrying the
    same value, holds that value after the launch, in whatever order the
    threads ran. *)
Lemma run_lookup (out : list (option T)) (ws : list (Z * option T)) (p : Z) (v : option T) :
  0 <= p -> (Z.to_nat p < length out)%nat ->
  (p, v) ∈ ws -> (forall v', (p, v') ∈ ws -> v' = v) ->
  Kernel.run out ws !! Z.to_nat p = Some v.
Proof.
  intros Hp Hlen. induction ws as [|[q u] ws IH] using rev_ind; intros Hin Huniq.
  - by apply elem_of_nil in Hin.
  - rewrite run_snoc. cbn [fst snd]. unfold Kernel.store.
    destruct (decide (q = p)) as [->|Hne].
    + rewrite (proj2 (Z.leb_le 0 p)) by done.
      rewrite list_lookup_insert_eq by (by rewrite run_length).
      f_equal. apply Huniq. apply elem_of_app. right. by apply list_elem_of_singleton.
    + assert ((p, v) ∈ ws) as Hin'.
      { apply elem_of_app in Hin as [Hin|Hin]; [done|].
        apply list_elem_of_singleton in Hin. congruence. }
      assert (Kernel.run out ws !! Z.to_nat p = Some v) as E.
      { apply IH; [done|]. intros v' Hv'. apply Huniq, elem_of_app. by left. }
      destruct (0 <=? q) eqn:Hq; [|done].
      rewrite list_lookup_insert_ne; [done|]. apply Z.leb_le in Hq. lia.
Qed.

Lemma run_lookup_other (out : list (option T)) (ws : list (Z * option T)) (p : Z) :
  0 <= p -> (forall v, (p, v) ∉ ws) ->
  Kernel.run out ws !! Z.to_nat p = out !! Z.to_nat p.
Proof.
  intros Hp. induction ws as [|[q u] ws IH] using rev_ind; intros Hnot; [done|].
  rewrite run_snoc. cbn [fst snd]. unfold Kernel.store.
  assert (q <> p) as Hne.
  { intros ->. apply (Hnot u), elem_of_app. right. by apply list_elem_of_singleton. }
  rewrite <- IH by (intros v Hv; apply (Hnot v), elem_of_app; by left).
  destruct (0 <=? q) eqn:Hq; [|done].
  rewrite list_lookup_insert_ne; [done|]. apply Z.leb_le in Hq. lia.
Qed.

End Launch.

(** ** Elementwise operators on equal shapes *)

Section Elementwise.
Context {T : Type} `{Scalar T}.

Lemma binary_elem (f : T -> T -> T) idx n rank_ s1 s2 s t1 t2 (p : Z) (v : option T) :
  (p, v) ∈ Kernel.binary f idx n rank_ s1 s2 s t1 t2 ->
  p = idx /\ wrap64 idx < n /\ v = cell_value f rank_ s1 s2 s t1 t2 (wrap64 idx).
Proof.
  unfold Kernel.binary, cell_value.
  destruct (Z.ltb_spec (wrap64 idx) n) as [Hlt|_]; [|by intros ?%elem_of_nil].
  destruct (Kernel.get_indices _ _ _ _ _) as [[i0 i1]|e];
    intros Hin%list_elem_of_singleton; by simplify_eq.
Qed.

Lemma binary_intro (f : T -> T -> T) idx n rank_ s1 s2 s t1 t2 :
  wrap64 idx < n ->
  (idx, cell_value f rank_ s1 s2 s t1 t2 (wrap64 idx))
    ∈ Kernel.binary f idx n rank_ s1 s2 s t1 t2.
Proof.
  intros Hlt. unfold Kernel.binary, cell_value.
  rewrite (proj2 (Z.ltb_lt _ _) Hlt).
  destruct (Kernel.get_indices _ _ _ _ _) as [[i0 i1]|e]; by apply list_elem_of_singleton.
Qed.

Lemma grid_1d_x (n : Z) : 0 <= n <= 2 ^ 31 -> x (grid_1d n) = (n + 255) / 256.
Proof.
  intros Hn. unfold grid_1d, dim3_1. cbn [x].
  rewrite (wrap64_small (n + 255)) by lia. apply wrap32_small.
  split; [apply Z.div_pos; lia|]. apply Z.div_lt_upper_bound; lia.
Qed.

Lemma global_x_1d (bx tx : Z) (by_ bz ty tz : Z) :
  0 <= bx -> 0 <= tx < 256 -> bx * 256 + tx < 2 ^ 32 ->
  Kernel.global_x (Thread (Dim3 bx by_ bz) block_1d (Dim3 tx ty tz)) = bx * 256 + tx.
Proof.
  intros Hbx Htx Hlt. unfold Kernel.global_x, block_1d, dim3_1. cbn [x blockIdx blockDim threadIdx].
  rewrite (wrap32_small 256) by lia. rewrite (wrap32_small (bx * 256)) by lia.
  apply wrap32_small. lia.
Qed.

(** The launches of the elementwise operators are accepted up to [2^31]
    elements. *)
Lemma host_launch_1d (n : Z) (kernel : thread -> list (Z * option T))
    (out : list (option T)) :
  0 < n <= 2 ^ 31 ->
  Kernel.host_launch (grid_1d n) block_1d kernel out
  = Kernel.launch (grid_1d n) block_1d kernel out.
Proof.
  intros Hn. unfold Kernel.host_launch.
  assert (Kernel.accepted (grid_1d n) block_1d = true) as ->; [|done].
  unfold Kernel.accepted. rewrite grid_1d_x by lia.
  unfold grid_1d, block_1d, dim3_1. cbn [x y z].
  change (wrap32 256) with 256.
  assert (1 <= (n + 255) / 256) by (apply Z.div_le_lower_bound; lia).
  assert ((n + 255) / 256 < 2 ^ 31) by (apply Z.div_lt_upper_bound; lia).
  rewrite !andb_true_iff. repeat split; apply Z.leb_le; lia.
Qed.

(** One launch of a broadcasting kernel fills every cell below [n],
    whether the kernel keeps its index in a [size_t] or in an [int]. *)
Lemma launch_binary_lookup (f : T -> T -> T) (idx : thread -> Z) n rank_ s1 s2 s t1 t2
    (out : list (option T)) (k : nat) :
  (forall t, idx t = Kernel.global_x t \/ idx t = to_int (Kernel.global_x t)) ->
  0 <= n <= 2 ^ 31 -> length out = Z.to_nat n -> Z.of_nat k < n ->
  Kernel.launch (grid_1d n) block_1d
    (fun t => Kernel.binary f (idx t) n rank_ s1 s2 s t1 t2) out !! k
  = Some (cell_value f rank_ s1 s2 s t1 t2 (Z.of_nat k)).
Proof.
  intros Hidx Hn Hlen Hk. unfold Kernel.launch.
  set (p := Z.of_nat k). rewrite <- (Nat2Z.id k). fold p.
  assert (0 <= p < n) as Hp by lia.
  apply run_lookup; [lia | lia | |].
  - apply list_elem_of_bind.
    exists (Thread (Dim3 (p / 256) 0 0) block_1d (Dim3 (p mod 256) 0 0)).
    pose proof (Z.mod_pos_bound p 256 ltac:(lia)) as Hm.
    pose proof (Z.div_pos p 256 ltac:(lia) ltac:(lia)) as Hd.
    pose proof (Z.div_mod p 256 ltac:(lia)) as Hdm.
    assert (Kernel.global_x (Thread (Dim3 (p / 256) 0 0) block_1d (Dim3 (p mod 256) 0 0)) = p)
      as Eg by (rewrite global_x_1d; lia).
    assert (idx (Thread (Dim3 (p / 256) 0 0) block_1d (Dim3 (p mod 256) 0 0)) = p) as Ei.
    { destruct (Hidx (Thread (Dim3 (p / 256) 0 0) block_1d (Dim3 (p mod 256) 0 0))) as [->| ->];
        rewrite Eg; [done|]. apply to_int_small. lia. }
    split.
    + pose proof (binary_intro f
          (idx (Thread (Dim3 (p / 256) 0 0) block_1d (Dim3 (p mod 256) 0 0)))
          n rank_ s1 s2 s t1 t2) as Hb.
      rewrite Ei, (wrap64_small p) in Hb by lia. cbv beta. rewrite Ei. apply Hb. lia.
    + apply elem_of_threads. cbn [blockIdx blockDim threadIdx x y z].
      rewrite grid_1d_x by lia. unfold grid_1d, block_1d, dim3_1. cbn [x y z].
      rewrite (wrap32_small 256) by lia.
      repeat split; try lia.
      apply Z.div_lt_upper_bound; [lia|].
      pose proof (Z.mul_succ_div_gt (n + 255) 256 ltac:(lia)). lia.
  - intros v' (t & Hin & _)%list_elem_of_bind.
    apply binary_elem in Hin as (Ep & _ & ->). rewrite <- Ep.
    by rewrite wrap64_small by lia.
Qed.

Lemma launch_length grid block (kernel : thread -> list (Z * option T))
    (out : list (option T)) :
  length (Kernel.launch grid block kernel out) = length out.
Proof. unfold Kernel.launch. apply run_length. Qed.

Lemma launch_ext grid block (g g' : thread -> list (Z * option T))
    (out : list (option T)) :
  (forall t, g t = g' t) ->
  Kernel.launch grid block g out = Kernel.launch grid block g' out.
Proof. intros Hg. unfold Kernel.launch. f_equal. by apply list_bind_ext. Qed.

Lemma broadcast_op_Ok kernel (t1 t2 : Tensor T) :
  consistent t1 -> consistent t2 -> (rank t1 <= rank t2)%nat ->
  exists c, broadcast_op kernel t1 t2 = Ok c.
Proof.
  intros C1 C2 Hr.
  destruct (prepare_broadcast_Ok t1 t2 C1 C2 Hr) as (sh & ts1 & ts2 & E & _).
  unfold broadcast_op. rewrite E. cbn [mbind result_bind]. by eexists.
Qed.


Lemma load_lookup (d : list (option T)) (k : nat) :
  Kernel.load d (Z.of_nat k) = mjoin (d !! k).
Proof.
  unfold Kernel.load. rewrite (proj2 (Z.leb_le 0 (Z.of_nat k))) by lia.
  by rewrite Nat2Z.id.
Qed.


End Elementwise.

Section ElementwiseClaim.
Context {T : Type} `{Scalar T}.


End ElementwiseClaim.

(** ** The [int] index of [subtract] *)

Section IntIndex.
Context {T : Type} `{Scalar T}.



End IntIndex.

(** ** Gradient propagation *)

Section Gradients.
Context {T : Type} `{Scalar T}.


Lemma operator_mul_Ok (h : heap T) (t1 t2 : Tensor T) :
  consistent t1 -> consistent t2 -> (rank t1 <= rank t2)%nat ->
  exists c,
    broadcast_op Kernel.multiply t1 t2 = Ok c /\
    operator_mul h t1 t2
      = Ok (with_backward c (Some (length h)),
            h ++ [mkBackward MultiplyBackward [t1; t2] [backward t1; backward t2]]).
Proof.
  intros C1 C2 Hr. destruct (broadcast_op_Ok Kernel.multiply t1 t2 C1 C2 Hr) as [c E].
  exists c. split; [done|]. unfold operator_mul. by rewrite E.
Qed.


(** A multiply node with two null parents forwards nothing. *)
Lemma call_multiply_null (fuel : nat) (h : heap T) (p : nat) (ta tb g : Tensor T) :
  h !! p = Some (mkBackward MultiplyBackward [ta; tb] [None; None]) ->
  call (S fuel) h p g = Ok h.
Proof.
  intros Ep. cbn [call]. rewrite (at_Ok _ _ _ Ep).
  cbn [mbind result_bind class backwards tensors].
  rewrite (at_Ok [None; None] 0 None) by done. cbn [mbind result_bind].
  rewrite (at_Ok _ _ _ Ep). cbn [mbind result_bind class backwards tensors].
  by rewrite (at_Ok [None; None] 1 None) by done.
Qed.




(** C5. The results of [+], [-], [/] and [mm] have a null [backward],
    and [gradients()] on such a result dereferences that null node: it
    is the [NullNode] fault in every heap, never a tensor. For operands of
    equal rank the three broadcasting operators do return a result. *)
Theorem no_node_after_add_sub_div_mm (a b : Tensor T) :
  (forall c : Tensor T,
     operator_add a b = Ok c \/ operator_sub a b = Ok c \/
     operator_div a b = Ok c \/ mm a b = Ok c ->
     backward c = None /\ forall h : heap T, gradients h c = Err NullNode) /\
  (consistent a -> consistent b -> rank a = rank b ->
     exists c1 c2 c3 : Tensor T,
       operator_add a b = Ok c1 /\ operator_sub a b = Ok c2 /\ operator_div a b = Ok c3).
Proof.
  split.
  - intros c Hc.
    assert (backward c = None) as E.
    { destruct Hc as [E|[E|[E|E]]];
        [by apply broadcast_op_backward in E .. | by apply mm_backward in E]. }
    split; [done|]. intros h. by apply gradients_null.
  - intros Ca Cb Hr.
    destruct (broadcast_op_Ok Kernel.add a b Ca Cb) as [c1 E1]; [lia|].
    destruct (broadcast_op_Ok Kernel.subtract a b Ca Cb) as [c2 E2]; [lia|].
    destruct (broadcast_op_Ok Kernel.divide a b Ca Cb) as [c3 E3]; [lia|].
    by exists c1, c2, c3.
Qed.

(** C10. Whenever [a * b] is computed, with or without gradient leaves
    on the operands, the product carries the node just created, and
    [gradients()] on it succeeds with the first tensor stored in that
    node, the operand [a] itself; for operands of equal rank the product
    is computed. *)
Theorem product_gradients_is_first_operand (h : heap T) (a b : Tensor T) :
  (forall c h', operator_mul h a b = Ok (c, h') ->
     backward c = Some (length h) /\ gradients h' c = Ok a) /\
  (consistent a -> consistent b -> rank a = rank b ->
     exists c h', operator_mul h a b = Ok (c, h')).
Proof.
  split.
  - unfold operator_mul. intros c h' E. ok_inv E. simplify_eq.
    split; [done|]. unfold gradients. cbn [backward with_backward].
    by rewrite (at_Ok _ _ (mkBackward MultiplyBackward [a; b] [backward a; backward b]))
      by (by rewrite list_lookup_middle).
  - intros Ca Cb Hr. destruct (operator_mul_Ok h a b Ca Cb) as (c & _ & E); [lia|].
    by eexists _, _.
Qed.

End Gradients.

(** ** Addresses modulo [2^64] *)

#[global] Instance eq64_equiv : Equivalence eq64.
Proof. unfold eq64. split; [done | by intros ?? | by intros ??? ->]. Qed.

#[global] Instance eq64_add : Proper (eq64 ==> eq64 ==> eq64) Z.add.
Proof.
  unfold eq64, wrap64. intros a a' Ha b b' Hb.
  by rewrite Zplus_mod, Ha, Hb, <- Zplus_mod.
Qed.

#[global] Instance eq64_mul : Proper (eq64 ==> eq64 ==> eq64) Z.mul.
Proof.
  unfold eq64, wrap64. intros a a' Ha b b' Hb.
  by rewrite Zmult_mod, Ha, Hb, <- Zmult_mod.
Qed.

Lemma eq64_wrap (a : Z) : eq64 (wrap64 a) a.
Proof. unfold eq64. apply wrap64_idem. Qed.

Lemma eq64_intro (a b : Z) : eq64 a b -> wrap64 a = wrap64 b.
Proof. done. Qed.

#[global] Typeclasses Opaque eq64.
#[global] Opaque eq64.

(** Equal after reduction: strip every inner [wrap64], compare as
    polynomials. *)
Ltac wrap_ring :=
  apply eq64_intro;
  repeat setoid_rewrite eq64_wrap;
  match goal with |- eq64 ?a ?b => replace a with b by ring; reflexivity end.

Lemma dotZ_app (v1 v2 w1 w2 : list Z) :
  length v1 = length v2 -> dotZ (v1 ++ w1) (v2 ++ w2) = dotZ v1 v2 + dotZ w1 w2.
Proof.
  revert v2. induction v1 as [|s v1 IH]; intros [|i v2] Hlen; simplify_eq/=; [done|].
  rewrite IH by done. lia.
Qed.

Lemma flat_index_range (bs batch : list Z) :
  valid_index batch bs -> 0 <= flat_index bs batch < prod bs.
Proof.
  induction 1 as [|i d batch bs Hi _ IH]; [simpl; lia|].
  cbn [flat_index]. change (prod (d :: bs)) with (d * prod bs). nia.
Qed.

Lemma valid_index_pos (bs batch : list Z) :
  valid_index batch bs -> Forall (fun d => 0 < d) bs.
Proof. induction 1; constructor; [lia | done]. Qed.

Section Addresses.
Context {T : Type} `{Scalar T}.

Lemma inner_product_dotZ (v1 v2 : list Z) (init : Z) :
  (length v1 <= length v2)%nat -> 0 <= init < 2 ^ 64 ->
  inner_product v1 v2 init = Ok (wrap64 (init + dotZ v1 v2)).
Proof.
  revert v2 init. induction v1 as [|s v1 IH]; intros v2 init Hlen Hinit.
  - destruct v2; simpl; by rewrite Z.add_0_r, wrap64_small.
  - destruct v2 as [|i v2]; simpl in Hlen; [lia|].
    cbn [inner_product dotZ]. rewrite IH by (lia || apply wrap64_range).
    f_equal. wrap_ring.
Qed.

Lemma row_major_mod (s : list Z) : (row_major s).2 = wrap64 (prod s).
Proof.
  induction s as [|d s IH]; [done|].
  rewrite row_major_cons. cbn [snd]. rewrite IH.
  change (prod (d :: s)) with (d * prod s). wrap_ring.
Qed.

Lemma row_major_drop (bs tail : list Z) :
  drop (length bs) (row_major (bs ++ tail)).1 = (row_major tail).1.
Proof.
  induction bs as [|d bs IH]; [done|].
  cbn [app length]. by rewrite row_major_cons.
Qed.

(** The strides of the leading dimensions address whole blocks of the
    trailing ones. *)
Lemma dotZ_leading (bs tail batch : list Z) :
  length batch = length bs ->
  eq64 (dotZ (take (length bs) (row_major (bs ++ tail)).1) batch)
       (flat_index bs batch * prod tail).
Proof.
  revert batch. induction bs as [|d bs IH]; intros [|i batch] Hlen; simplify_eq/=; [done|].
  destruct (row_major (bs ++ tail)) as [st k] eqn:E.
  pose proof (row_major_mod (bs ++ tail)) as Hk. rewrite E in Hk. cbn [fst snd] in *.
  rewrite Hk, prod_app. cbn [firstn dotZ]. setoid_rewrite (IH batch Hlen). setoid_rewrite eq64_wrap.
  match goal with |- eq64 ?a ?b => replace a with b by ring; reflexivity end.
Qed.

End Addresses.

(** ** Batched matrix multiplication *)

Section MatrixMultiply.
Context {T : Type} `{Scalar T}.



Lemma mixed_radix_inj (w a a' c c' : Z) :
  0 <= c < w -> 0 <= c' < w -> a * w + c = a' * w + c' -> a = a' /\ c = c'.
Proof. intros Hc Hc' E. assert (a = a') by nia. split; [done | nia]. Qed.







Lemma lookup_last2 {A : Type} (l : list A) (u v : A) :
  (l ++ [u; v]) !! length l = Some u /\ (l ++ [u; v]) !! S (length l) = Some v.
Proof.
  split; [by rewrite list_lookup_middle|].
  rewrite lookup_app_r by lia. by replace (S (length l) - length l)%nat with 1%nat by lia.
Qed.


Lemma at_z_nat {A : Type} (l : list A) (i : nat) (u : A) :
  l !! i = Some u -> at_z l (Z.of_nat i) = Ok u.
Proof.
  intros E. unfold at_z. rewrite (proj2 (Z.leb_le 0 (Z.of_nat i))) by lia.
  rewrite Nat2Z.id. by apply at_Ok.
Qed.

Lemma at_z_last2 {A : Type} (l : list A) (u v : A) :
  at_z (l ++ [u; v]) (Z.of_nat (length (l ++ [u; v])) - 2) = Ok u /\
  at_z (l ++ [u; v]) (Z.of_nat (length (l ++ [u; v])) - 1) = Ok v.
Proof.
  rewrite length_app. cbn [length].
  replace (Z.of_nat (length l + 2) - 2) with (Z.of_nat (length l)) by lia.
  replace (Z.of_nat (length l + 2) - 1) with (Z.of_nat (S (length l))) by lia.
  destruct (lookup_last2 l u v) as [E1 E2]. split; by apply at_z_nat.
Qed.

Lemma insert_last {A : Type} (l : list A) (u v v' : A) :
  <[pred (length (l ++ [u; v])) := v']> (l ++ [u; v]) = l ++ [u; v'].
Proof.
  rewrite length_app. cbn [length].
  replace (pred (length l + 2)) with (length l + 1)%nat by lia.
  by rewrite insert_app_r.
Qed.



End MatrixMultiply.

(** * The engine on integer tensors *)

Example from_vector_m1234 : from_vector [1; 2; 3; 4] [2; 2] = Ok m1234.
Proof. reflexivity. Qed.

Example batch_view_is_transpose : transpose batch_2x3 0 1 = Ok batch_view.
Proof. reflexivity. Qed.

Example trailing_view_is_transpose :
  transpose (dense_of [1; 2; 3; 4; 5; 6; 7; 8; 9; 10; 11; 12] [2; 2; 3]) 1 2 = Ok trailing_view.
Proof. reflexivity. Qed.

(** ** Evaluations *)

(** C6. [mm] of [[1,2],[3,4]] and [[5,6],[7,8]] is [[19,22],[43,50]]. *)
Theorem mm_2x2_example :
  (a ← from_vector [1; 2; 3; 4] [2; 2]; b ← from_vector [5; 6; 7; 8] [2; 2]; mm a b)
  = Ok (dense_of [19; 22; 43; 50] [2; 2]).
Proof. vm_compute. reflexivity. Qed.

(** C1, the behaviour at a failing input. On the vector [3, 4] the public
    [sum] returns the one-element tensor holding 1, the value the
    [relu_d] kernel computes for the first element, whereas the [sum]
    kernel launched the same way stores 7. *)
Theorem sum_of_3_4 :
  (t ← from_vector [3; 4] [2]; Ok (sum t)) = Ok (dense_of [1] [1]) /\
  Kernel.launch (dim3_1 1) (dim3_1 1) (Kernel.sum 2 [Some 3; Some 4]) [None] = [Some 7].
Proof. split; vm_compute; reflexivity. Qed.



(** The scenario of C3 run on integers: the leaf of [a] holds [g * b] and
    the leaf of [b] holds [g * a]. *)
Example product_rule_run :
  (let '(a, h1) := requires_gradients [] m1234 in
   let '(b, h2) := requires_gradients h1 m5678 in
   '(c, h3) ← operator_mul h2 a b;
   h4 ← call 2 h3 2 ones_2x2;
   ga ← gradients h4 a;
   gb ← gradients h4 b;
   Ok (backward c, data ga, data gb))
  = Ok (Some 2%nat, Some <$> [5; 6; 7; 8], Some <$> [1; 2; 3; 4]).
Proof. vm_compute. reflexivity. Qed.

(** ** Instances of the general results *)

Lemma strides_row_major_witness :
  [2; 3; 4] <> [] /\ Forall (fun d => 0 < d) [2; 3; 4] /\
  strides (Tensor_new (T := Z) [2; 3; 4]) !! 2%nat = Some 1.
Proof.
  assert ([2; 3; 4] <> []) as H1 by done.
  assert (Forall (fun d => 0 < d) [2; 3; 4]) as H2 by (repeat constructor; lia).
  split; [exact H1|]. split; [exact H2|].
  exact (proj1 (strides_row_major (T := Z) [2; 3; 4] H1 H2)).
Defined.

Lemma transpose_transpose_witness :
  length (shape m1234) = rank m1234 /\ length (strides m1234) = rank m1234 /\
  (0 < rank m1234)%nat /\ (1 < rank m1234)%nat /\
  exists t1 t2 : Tensor Z,
    transpose m1234 0 1 = Ok t1 /\ transpose t1 0 1 = Ok t2 /\
    shape t2 = shape m1234 /\ strides t2 = strides m1234.
Proof.
  assert (length (shape m1234) = rank m1234) as H1 by reflexivity.
  assert (length (strides m1234) = rank m1234) as H2 by reflexivity.
  assert (0 < rank m1234)%nat as H3 by (simpl; lia).
  assert (1 < rank m1234)%nat as H4 by (simpl; lia).
  repeat (split; [assumption|]).
  exact (transpose_transpose m1234 0 1 H1 H2 H3 H4).
Defined.

Lemma no_node_witness :
  operator_add m1234 m5678 = Ok (dense_of [6; 8; 10; 12] [2; 2]) /\
  backward (dense_of [6; 8; 10; 12] [2; 2]) = None /\
  forall h : heap Z, gradients h (dense_of [6; 8; 10; 12] [2; 2]) = Err NullNode.
Proof.
  assert (operator_add m1234 m5678 = Ok (dense_of [6; 8; 10; 12] [2; 2])) as E
    by (vm_compute; reflexivity).
  split; [exact E|].
  exact (proj1 (no_node_after_add_sub_div_mm m1234 m5678) _ (or_introl E)).
Defined.

Lemma product_gradients_witness :
  consistent m1234 /\ consistent m5678 /\ rank m1234 = rank m5678 /\
  exists c h', operator_mul [] m1234 m5678 = Ok (c, h') /\
    backward c = Some 0%nat /\ gradients h' c = Ok m1234.
Proof.
  assert (consistent m1234) as C1 by (split; reflexivity).
  assert (consistent m5678) as C2 by (split; reflexivity).
  assert (rank m1234 = rank m5678) as Hr by reflexivity.
  repeat (split; [assumption|]).
  destruct (proj2 (product_gradients_is_first_operand [] m1234 m5678) C1 C2 Hr)
    as (c & h' & E).
  exists c, h'. split; [exact E|].
  exact (proj1 (product_gradients_is_first_operand [] m1234 m5678) c h' E).
Defined.

Lemma broadcast_rule_witness :
  let t1 := dense_of [1; 2; 3; 4; 5; 6] [2; 3] in
  let t2 := dense_of [10; 20; 30] [1; 3] in
  consistent t1 /\ consistent t2 /\ rank t1 = rank t2 /\
  exists s1 s2 s out,
    prepare_broadcast t1 t2 = Ok (s1, s2, s, out) /\
    s1 !! 0%nat = Some 3 /\ s2 !! 0%nat = Some 0 /\ shape out !! 0%nat = Some 2.
Proof.
  intros t1 t2.
  assert (consistent t1) as C1 by (split; reflexivity).
  assert (consistent t2) as C2 by (split; reflexivity).
  assert (rank t1 = rank t2) as Hr by reflexivity.
  repeat (split; [assumption|]).
  destruct (proj1 (broadcast_rule (T := Z)) t1 t2 C1 C2 Hr) as (s1 & s2 & s & out & E & Hrule).
  exists s1, s2, s, out. split; [exact E|].
  destruct (Hrule 0%nat 2 1 3 3) as (_ & Hgt & _); try reflexivity.
  apply Hgt. lia.
Defined.




(** * Further properties *)

(** ** Construction and indexing *)

Section Indexing.
Context {T : Type} `{Scalar T}.

(** Through dense strides a valid coordinate vector addresses its
    row-major flat index. *)
Lemma dotZ_row_major (s c : list Z) :
  prod s < 2 ^ 64 -> valid_index c s ->
  wrap64 (dotZ (row_major s).1 c) = flat_index s c.
Proof.
  intros Hlt Hv. pose proof (flat_index_range _ _ Hv) as Hf.
  pose proof (Forall2_length _ _ _ Hv) as Hlen.
  rewrite <- (wrap64_small (flat_index s c)) by lia. apply eq64_intro.
  pose proof (dotZ_leading s [] c Hlen) as E.
  rewrite app_nil_r, take_ge in E by (by rewrite row_major_length).
  setoid_rewrite E. change (prod []) with 1.
  match goal with |- eq64 ?u ?v => replace u with v by ring; reflexivity end.
Qed.

Lemma subscript_dense (t : Tensor T) (c : list Z) :
  strides t = (row_major (shape t)).1 -> prod (shape t) < 2 ^ 64 ->
  valid_index c (shape t) ->
  subscript t c = Ok (Kernel.load (data t) (flat_index (shape t) c)).
Proof.
  intros Est Hlt Hv. pose proof (Forall2_length _ _ _ Hv) as Hlen.
  unfold subscript. rewrite Est.
  rewrite inner_product_dotZ by (rewrite ?row_major_length; lia).
  cbn [mbind result_bind]. rewrite Z.add_0_l. by rewrite dotZ_row_major.
Qed.

Lemma from_vector_load (vector : list T) (s : list Z) (t : Tensor T) (k : nat) :
  from_vector vector s = Ok t -> Kernel.load (data t) (Z.of_nat k) = vector !! k.
Proof.
  unfold from_vector. intros E. ok_inv E. subst t.
  match goal with Hd : decide _ = left ?l |- _ => clear Hd; pose proof l as Hlen end.
  cbn [data with_data Tensor_new] in *.
  match goal with |- context [imap _ ?dd] => set (d := dd) in * end.
  assert (forall c, d !! k = Some c -> c = None) as Hnone.
  { intros c Ek. apply list_elem_of_lookup_2 in Ek. unfold d, cudaMalloc in Ek.
    by apply elem_of_replicate in Ek as [-> _]. }
  rewrite load_lookup, list_lookup_imap.
  destruct (d !! k) as [c|] eqn:Ek.
  - rewrite (Hnone c eq_refl). cbn. by destruct (vector !! k).
  - cbn. symmetry. apply lookup_ge_None_2. apply lookup_ge_None_1 in Ek. lia.
Qed.

End Indexing.

Section IndexingResults.
Context {T : Type} `{Scalar T}.

Lemma with_data_dense (s : list Z) (d : list (option T)) :
  length d = length (data (Tensor_new (T := T) s)) -> dense (with_data (Tensor_new s) d).
Proof.
  intros Hd. split; [split; [done | apply row_major_length]|]. split; [done|]. done.
Qed.

Lemma from_vector_dense_load (vector : list T) (s : list Z) :
  Forall (fun d => 0 < d) s -> prod s < 2 ^ 32 ->
  (length vector <= Z.to_nat (prod s))%nat ->
  exists t, from_vector vector s = Ok t /\ shape t = s /\ dense t /\
    backward t = None /\
    forall k : nat, Kernel.load (data t) (Z.of_nat k) = vector !! k.
Proof.
  intros Hpos Hlt Hlen.
  pose proof (Tensor_new_data (T := T) s Hpos Hlt) as Ed.
  assert (length (data (Tensor_new (T := T) s)) = Z.to_nat (prod s)) as Ln
    by (by rewrite Ed, length_replicate).
  destruct (from_vector vector s) as [t|e] eqn:E.
  - exists t. split; [done|].
    pose proof (fun k => from_vector_load vector s t k E) as Hload.
    unfold from_vector in E. ok_inv E. subst t.
    split; [done|]. split; [|split; [done | by apply Hload]].
    apply with_data_dense. by rewrite length_imap.
  - unfold from_vector in E. rewrite decide_True in E by lia. done.
Qed.

(** X1. [from_vector] on a shape of fewer than [2^32] elements: a vector no
    longer than the element count gives a dense tensor of that shape whose
    cell [k] holds the [k]-th value, cells past the end of the vector
    staying indeterminate; a longer vector overruns the staging array. *)
Theorem from_vector_cells (vector : list T) (s : list Z) :
  Forall (fun d => 0 < d) s -> prod s < 2 ^ 32 ->
  ((length vector <= Z.to_nat (prod s))%nat ->
     exists t, from_vector vector s = Ok t /\ shape t = s /\ dense t /\
       backward t = None /\
       forall k : nat, Kernel.load (data t) (Z.of_nat k) = vector !! k) /\
  ((Z.to_nat (prod s) < length vector)%nat -> from_vector vector s = Err OutOfRange).
Proof.
  intros Hpos Hlt.
  pose proof (Tensor_new_data (T := T) s Hpos Hlt) as Ed.
  assert (length (data (Tensor_new (T := T) s)) = Z.to_nat (prod s)) as Ln
    by (by rewrite Ed, length_replicate).
  split; intros Hlen.
  - by apply from_vector_dense_load.
  - unfold from_vector. by rewrite decide_False by lia.
Qed.

(** X2. Round trip of [from_vector] and the subscript operator: the
    element read at a valid coordinate vector is the value at its
    row-major flat index. *)
Theorem from_vector_subscript (vector : list T) (s c : list Z) :
  prod s < 2 ^ 32 -> (length vector <= Z.to_nat (prod s))%nat -> valid_index c s ->
  exists t, from_vector vector s = Ok t /\
    subscript t c = Ok (vector !! Z.to_nat (flat_index s c)).
Proof.
  intros Hlt Hlen Hv. pose proof (valid_index_pos _ _ Hv) as Hpos.
  destruct (from_vector_dense_load vector s Hpos Hlt Hlen)
    as (t & E & Es & (_ & Est & _) & _ & Hload).
  exists t. split; [done|].
  pose proof (flat_index_range _ _ Hv) as Hf.
  rewrite (subscript_dense t c); [| exact Est | rewrite Es; lia | by rewrite Es].
  rewrite Es. f_equal. rewrite <- (Z2Nat.id (flat_index s c)) at 1 by lia. apply Hload.
Qed.

(** X3. [from_scalar] is [from_vector] of as many copies of the scalar as
    the shape has elements, and every element read back is the scalar. *)
Theorem from_scalar_fill (scalar : T) (s : list Z) :
  Forall (fun d => 0 < d) s -> prod s < 2 ^ 32 ->
  from_scalar scalar s = from_vector (replicate (Z.to_nat (prod s)) scalar) s /\
  forall c, valid_index c s ->
    exists t, from_scalar scalar s = Ok t /\ subscript t c = Ok (Some scalar).
Proof.
  intros Hpos Hlt.
  pose proof (Tensor_new_data (T := T) s Hpos Hlt) as Ed.
  pose proof (n_elements_exact (T := T) s Hpos ltac:(lia)) as En.
  pose proof (prod_pos s Hpos) as Hp.
  assert (from_scalar scalar s = from_vector (replicate (Z.to_nat (prod s)) scalar) s) as E.
  { unfold from_scalar, from_vector. cbv zeta. rewrite En, Ed, !length_replicate.
    rewrite !decide_True by lia. do 2 f_equal.
    apply list_eq. intros k. rewrite !list_lookup_imap.
    destruct (decide (k < Z.to_nat (prod s))%nat) as [Hk|Hk].
    - rewrite !lookup_replicate_2 by done. cbn.
      by rewrite (proj2 (Z.ltb_lt (Z.of_nat k) (prod s))) by lia.
    - by rewrite !lookup_ge_None_2 by (rewrite length_replicate; lia). }
  split; [done|]. intros c Hv. rewrite E.
  destruct (from_vector_dense_load (replicate (Z.to_nat (prod s)) scalar) s Hpos Hlt)
    as (t & Et & Es & (_ & Est & _) & _ & Hload); [by rewrite length_replicate|].
  exists t. split; [done|].
  pose proof (flat_index_range _ _ Hv) as Hf.
  rewrite (subscript_dense t c); [| exact Est | rewrite Es; lia | by rewrite Es].
  rewrite Es, <- (Z2Nat.id (flat_index s c)), Hload by lia.
  f_equal. apply lookup_replicate_2. lia.
Qed.

Lemma inner_product_short (v1 v2 : list Z) (init : Z) :
  (length v2 < length v1)%nat -> inner_product v1 v2 init = Err OutOfRange.
Proof.
  revert v2 init. induction v1 as [|s v1 IH]; intros [|i v2] init Hlen; simpl in *;
    try lia; [done|]. apply IH. lia.
Qed.

Lemma inner_product_extra (v1 v2 extra : list Z) (init : Z) :
  (length v1 <= length v2)%nat ->
  inner_product v1 (v2 ++ extra) init = inner_product v1 v2 init.
Proof.
  revert v2 init. induction v1 as [|s v1 IH]; intros [|i v2] init Hlen; simpl in *;
    try lia; [by destruct extra | done |]. apply IH. lia.
Qed.

(** X4. The subscript operator reads one coordinate per dimension: with
    fewer coordinates than dimensions it reads past the coordinate vector,
    and coordinates beyond the rank are ignored. *)
Theorem subscript_coordinate_count (t : Tensor T) (c extra : list Z) :
  ((length c < length (strides t))%nat -> subscript t c = Err OutOfRange) /\
  ((length (strides t) <= length c)%nat -> subscript t (c ++ extra) = subscript t c).
Proof.
  split; intros Hlen; unfold subscript.
  - by rewrite inner_product_short.
  - by rewrite inner_product_extra.
Qed.

(** X5. Coordinates are not checked against the shape: on a densely laid
    out tensor a column index [w] too far reads the same element as the
    next row does. *)
Theorem subscript_unchecked_column (t : Tensor T) (bs batch : list Z) (h w r c : Z) :
  shape t = bs ++ [h; w] -> strides t = (row_major (shape t)).1 ->
  length batch = length bs ->
  subscript t (batch ++ [r; c + w]) = subscript t (batch ++ [r + 1; c]).
Proof.
  intros Es Est Hlen. unfold subscript. rewrite Est, Es.
  rewrite <- (take_drop (length bs) (row_major (bs ++ [h; w])).1), row_major_drop.
  set (ss := take (length bs) (row_major (bs ++ [h; w])).1).
  assert (length ss = length bs) as Lss
    by (unfold ss; rewrite length_take, row_major_length, length_app; simpl; lia).
  rewrite !inner_product_dotZ by (rewrite ?length_app; simpl; lia).
  cbn [mbind result_bind]. rewrite !dotZ_app by lia. cbn [row_major fst dotZ].
  do 2 f_equal. wrap_ring.
Qed.

End IndexingResults.

(** ** Views *)

Lemma dotZ_insert (l c : list Z) (i : nat) (a b li ci : Z) :
  l !! i = Some li -> c !! i = Some ci ->
  dotZ (<[i := a]> l) (<[i := b]> c) = dotZ l c - li * ci + a * b.
Proof.
  revert c i. induction l as [|x l IH]; intros [|y c] [|i] El Ec; simplify_eq/=; try lia.
  rewrite (IH c i) by done. lia.
Qed.

Lemma dotZ_exchange (l c : list Z) (i j : nat) :
  (i < length l)%nat -> (j < length l)%nat -> length c = length l ->
  dotZ (exchange i j l) (exchange i j c) = dotZ l c.
Proof.
  intros Hi Hj Hlen. unfold exchange.
  destruct (lookup_lt_is_Some_2 l i Hi) as [li Eli].
  destruct (lookup_lt_is_Some_2 l j Hj) as [lj Elj].
  destruct (lookup_lt_is_Some_2 c i) as [ci Eci]; [lia|].
  destruct (lookup_lt_is_Some_2 c j) as [cj Ecj]; [lia|].
  rewrite Eli, Elj, Eci, Ecj.
  destruct (decide (i = j)) as [->|Hne].
  - simplify_eq. by rewrite !list_insert_insert_eq, !list_insert_id.
  - rewrite (dotZ_insert _ _ j li ci lj cj)
      by (by rewrite list_lookup_insert_ne).
    rewrite (dotZ_insert _ _ i lj cj li ci) by done. lia.
Qed.

Section Views.
Context {T : Type} `{Scalar T}.

Lemma transpose_inv (t v : Tensor T) (i j : nat) :
  transpose t i j = Ok v ->
  exists di dj si sj,
    shape t !! i = Some di /\ shape t !! j = Some dj /\
    strides t !! i = Some si /\ strides t !! j = Some sj.
Proof.
  unfold transpose. intros E. ok_inv E.
  repeat match goal with E : at_ _ _ = Ok _ |- _ => apply at_Ok_inv in E end.
  by eexists _, _, _, _.
Qed.

Lemma transpose_fault (t : Tensor T) (i j : nat) (e : fault) :
  transpose t i j = Err e -> e = OutOfRange.
Proof.
  unfold transpose, at_, set_. intros E.
  repeat (match type of E with
          | context [match ?x with _ => _ end] => destruct x; cbn in E
          end; try congruence).
Qed.

Lemma exchange_lookups {A : Type} (l : list A) (i j : nat) (a b : A) :
  l !! i = Some a -> l !! j = Some b -> exchange i j l = <[j := a]> (<[i := b]> l).
Proof. intros Ea Eb. unfold exchange. by rewrite Ea, Eb. Qed.

Lemma transpose_view (t v : Tensor T) (i j : nat) :
  transpose t i j = Ok v ->
  data v = data t /\ shape v = exchange i j (shape t) /\
  strides v = exchange i j (strides t).
Proof.
  intros E. pose proof E as Einv.
  apply transpose_inv in Einv as (di & dj & si & sj & E1 & E2 & E3 & E4).
  rewrite (transpose_Ok t i j di dj si sj) in E by done. injection E as <-. cbn.
  by rewrite (exchange_lookups _ _ _ _ _ E1 E2), (exchange_lookups _ _ _ _ _ E3 E4).
Qed.

(** X6. [transpose] is defined exactly for two dimensions within the shape
    and the strides; the view then has the buffer, the node, the rank and
    the element count of its source, and the two entries of shape and of
    strides exchanged. Any other pair of dimensions reads a vector out of
    range. *)
Theorem transpose_defined (t : Tensor T) (i j : nat) :
  ((i < length (shape t))%nat /\ (j < length (shape t))%nat /\
   (i < length (strides t))%nat /\ (j < length (strides t))%nat ->
     exists v, transpose t i j = Ok v /\
       data v = data t /\ backward v = backward t /\ rank v = rank t /\
       n_elements v = n_elements t /\ size v = size t /\
       shape v = exchange i j (shape t) /\ strides v = exchange i j (strides t)) /\
  (~ ((i < length (shape t))%nat /\ (j < length (shape t))%nat /\
      (i < length (strides t))%nat /\ (j < length (strides t))%nat) ->
     transpose t i j = Err OutOfRange).
Proof.
  split.
  - intros (Hi & Hj & Hi' & Hj').
    destruct (lookup_lt_is_Some_2 _ _ Hi) as [di Edi].
    destruct (lookup_lt_is_Some_2 _ _ Hj) as [dj Edj].
    destruct (lookup_lt_is_Some_2 _ _ Hi') as [si Esi].
    destruct (lookup_lt_is_Some_2 _ _ Hj') as [sj Esj].
    eexists. split; [by apply (transpose_Ok t i j di dj si sj)|]. cbn.
    by rewrite (exchange_lookups _ _ _ _ _ Edi Edj), (exchange_lookups _ _ _ _ _ Esi Esj).
  - intros Hnot. destruct (transpose t i j) as [v|e] eqn:E.
    + exfalso. apply Hnot.
      apply transpose_inv in E as (di & dj & si & sj & E1 & E2 & E3 & E4).
      repeat split; by eapply lookup_lt_Some.
    + by rewrite (transpose_fault _ _ _ _ E).
Qed.

(** X7. A view reads the buffer of its source: the element of
    [transpose(t, i, j)] at a coordinate vector with entries [i] and [j]
    exchanged is the element of [t] at the coordinate vector. *)
Theorem transpose_reads_source (t v : Tensor T) (i j : nat) (c : list Z) :
  transpose t i j = Ok v -> length c = length (strides t) ->
  subscript v (exchange i j c) = subscript t c.
Proof.
  intros E Hlen. pose proof E as Einv.
  apply transpose_inv in Einv as (di & dj & si & sj & E1 & E2 & E3 & E4).
  rewrite (transpose_Ok t i j di dj si sj) in E by done. injection E as <-.
  unfold subscript. cbn [strides data].
  rewrite <- (exchange_lookups _ _ _ _ _ E3 E4).
  pose proof (lookup_lt_Some _ _ _ E3) as Hi. pose proof (lookup_lt_Some _ _ _ E4) as Hj.
  assert (length (exchange i j (strides t)) = length (strides t)) as L1.
  { rewrite (exchange_lookups _ _ _ _ _ E3 E4). by rewrite !length_insert. }
  assert (length (exchange i j c) = length c) as L2.
  { unfold exchange. repeat case_match; by rewrite ?length_insert. }
  rewrite !inner_product_dotZ by lia. by rewrite dotZ_exchange.
Qed.

(** X8. The order of the two dimensions does not matter to [transpose],
    and exchanging a dimension with itself returns the tensor. *)
Theorem transpose_symmetric (t : Tensor T) (i j : nat) :
  transpose t i j = transpose t j i /\
  ((i < length (shape t))%nat -> (i < length (strides t))%nat -> transpose t i i = Ok t).
Proof.
  split.
  - destruct (transpose t i j) as [v|e] eqn:E, (transpose t j i) as [v'|e'] eqn:E'.
    + pose proof E as Einv.
      apply transpose_inv in Einv as (di & dj & si & sj & E1 & E2 & E3 & E4).
      rewrite (transpose_Ok t i j di dj si sj) in E by done.
      rewrite (transpose_Ok t j i dj di sj si) in E' by done.
      rewrite <- E, <- E'. destruct (decide (i = j)) as [->|Hne]; [by simplify_eq|].
      by rewrite (list_insert_insert_ne (shape t)), (list_insert_insert_ne (strides t))
        by done.
    + apply transpose_inv in E as (di & dj & si & sj & E1 & E2 & E3 & E4).
      by rewrite (transpose_Ok t j i dj di sj si) in E' by done.
    + apply transpose_inv in E' as (dj & di & sj & si & E1 & E2 & E3 & E4).
      by rewrite (transpose_Ok t i j di dj si sj) in E by done.
    + by rewrite (transpose_fault _ _ _ _ E), (transpose_fault _ _ _ _ E').
  - intros Hi Hi'.
    destruct (lookup_lt_is_Some_2 _ _ Hi) as [di Edi].
    destruct (lookup_lt_is_Some_2 _ _ Hi') as [si Esi].
    rewrite (transpose_Ok t i i di di si si) by done.
    rewrite !list_insert_insert_eq, !list_insert_id by done. by destruct t.
Qed.

End Views.

(** ** Unary operators *)

Section Unary.
Context {T : Type} `{Scalar T}.

(** One launch of a unary kernel fills every cell below [n] from the cell
    of the input at the same position. *)
Lemma launch_unary_lookup (g : T -> T) (n : Z) (input out : list (option T)) (k : nat) :
  0 <= n <= 2 ^ 31 -> length out = Z.to_nat n -> Z.of_nat k < n ->
  Kernel.launch (grid_1d n) block_1d
    (fun t => let i := to_int (Kernel.global_x t) in
              if wrap64 i <? n then [(i, Kernel.lift1 g (Kernel.load input i))] else [])
    out !! k
  = Some (Kernel.lift1 g (Kernel.load input (Z.of_nat k))).
Proof.
  intros Hn Hlen Hk. unfold Kernel.launch.
  set (p := Z.of_nat k). rewrite <- (Nat2Z.id k). fold p.
  assert (0 <= p < n) as Hp by lia.
  apply run_lookup; [lia | lia | |].
  - apply list_elem_of_bind.
    exists (Thread (Dim3 (p / 256) 0 0) block_1d (Dim3 (p mod 256) 0 0)).
    pose proof (Z.mod_pos_bound p 256 ltac:(lia)) as Hm.
    pose proof (Z.div_pos p 256 ltac:(lia) ltac:(lia)) as Hd.
    pose proof (Z.div_mod p 256 ltac:(lia)) as Hdm.
    assert (to_int (Kernel.global_x
              (Thread (Dim3 (p / 256) 0 0) block_1d (Dim3 (p mod 256) 0 0))) = p) as Ei.
    { rewrite global_x_1d by lia. rewrite to_int_small; lia. }
    split.
    + cbv zeta beta. rewrite Ei, (wrap64_small p) by lia.
      rewrite (proj2 (Z.ltb_lt p n)) by lia. by apply list_elem_of_singleton.
    + apply elem_of_threads. cbn [blockIdx blockDim threadIdx x y z].
      rewrite grid_1d_x by lia. unfold grid_1d, block_1d, dim3_1. cbn [x y z].
      rewrite (wrap32_small 256) by lia.
      repeat split; try lia.
      apply Z.div_lt_upper_bound; [lia|].
      pose proof (Z.mul_succ_div_gt (n + 255) 256 ltac:(lia)). lia.
  - intros v' (t & Hin & _)%list_elem_of_bind. cbv zeta beta in Hin.
    destruct (wrap64 (to_int (Kernel.global_x t)) <? n); [|by apply elem_of_nil in Hin].
    apply list_elem_of_singleton in Hin. injection Hin as Ep ->. by rewrite <- Ep.
Qed.

Lemma launch_unary_data (g : T -> T) (s : list Z) (input : list (option T)) :
  fits_launch s -> length input = Z.to_nat (prod s) ->
  Kernel.launch (grid_1d (prod s)) block_1d
    (fun t => let i := to_int (Kernel.global_x t) in
              if wrap64 i <? prod s
              then [(i, Kernel.lift1 g (Kernel.load input i))] else [])
    (data (Tensor_new (T := T) s))
  = Kernel.lift1 g <$> input.
Proof.
  intros [Hpos Hfit] Hlen. pose proof (prod_pos s Hpos) as Hp.
  rewrite Tensor_new_data by (done || lia).
  apply list_eq. intros k.
  destruct (decide (Z.of_nat k < prod s)) as [Hk|Hk].
  - rewrite launch_unary_lookup; [|lia|by rewrite length_replicate|done].
    rewrite load_lookup, list_lookup_fmap.
    destruct (lookup_lt_is_Some_2 input k) as [u ->]; [lia|]. done.
  - rewrite !lookup_ge_None_2; [done| |].
    + rewrite length_fmap. lia.
    + rewrite launch_length, length_replicate. lia.
Qed.

Lemma relu_buffer (t : Tensor T) :
  fits_launch (shape t) -> length (data t) = Z.to_nat (prod (shape t)) ->
  relu t = with_data (Tensor_new (shape t))
             (Kernel.lift1 (fun v => if s_pos v then v else s_zero) <$> data t).
Proof.
  intros Hfit Hlen. pose proof Hfit as [Hpos Hlt].
  pose proof (n_elements_exact (T := T) (shape t) Hpos ltac:(lia)) as En.
  unfold relu. cbv zeta. rewrite En. f_equal.
  rewrite host_launch_1d by (pose proof (prod_pos _ Hpos); lia).
  by apply launch_unary_data.
Qed.

(** X9. [relu], [relu_d] and unary [-] act on the buffer cell by cell, in
    buffer order and whatever the strides of the operand are, and return a
    densely laid out tensor of the operand's shape. *)
Theorem unary_operators_cellwise (t : Tensor T) :
  fits_launch (shape t) -> length (data t) = Z.to_nat (prod (shape t)) ->
  relu t = with_data (Tensor_new (shape t))
             (Kernel.lift1 (fun v => if s_pos v then v else s_zero) <$> data t) /\
  relu_d t = with_data (Tensor_new (shape t))
               (Kernel.lift1 (fun v => if s_pos v then s_one else s_zero) <$> data t) /\
  (n_elements t = prod (shape t) ->
     operator_neg t = with_data (Tensor_new (shape t)) (Kernel.lift1 s_neg <$> data t)).
Proof.
  intros Hfit Hlen. pose proof Hfit as [Hpos Hlt].
  pose proof (n_elements_exact (T := T) (shape t) Hpos ltac:(lia)) as En.
  split; [|split].
  - by apply relu_buffer.
  - unfold relu_d. cbv zeta. rewrite En. f_equal.
    rewrite host_launch_1d by (pose proof (prod_pos _ Hpos); lia).
    by apply launch_unary_data.
  - intros En'. unfold operator_neg. cbv zeta. rewrite En'. f_equal.
    rewrite host_launch_1d by (pose proof (prod_pos _ Hpos); lia).
    by apply launch_unary_data.
Qed.

End Unary.

Lemma prod_insert (l : list Z) (i : nat) (a li : Z) :
  l !! i = Some li -> prod (<[i := a]> l) * li = prod l * a.
Proof.
  revert i. induction l as [|x l IH]; intros [|i] El; simplify_eq/=.
  - change (a * prod l * li = li * prod l * a). lia.
  - change (x * prod (<[i := a]> l) * li = x * prod l * a).
    rewrite <- Z.mul_assoc, (IH i El). lia.
Qed.

Lemma exchange_positive (l : list Z) (i j : nat) :
  Forall (fun d => 0 < d) l ->
  Forall (fun d => 0 < d) (exchange i j l) /\ prod (exchange i j l) = prod l.
Proof.
  intros Hpos. unfold exchange.
  destruct (l !! i) as [a|] eqn:Ea; [|done]. destruct (l !! j) as [b|] eqn:Eb; [|done].
  assert (0 < a) as Ha by (rewrite Forall_lookup in Hpos; by apply (Hpos _ _ Ea)).
  assert (0 < b) as Hb by (rewrite Forall_lookup in Hpos; by apply (Hpos _ _ Eb)).
  split; [by repeat apply Forall_insert|].
  destruct (decide (i = j)) as [->|Hne].
  - simplify_eq. by rewrite list_insert_insert_eq, list_insert_id.
  - pose proof (prod_insert l i b a Ea) as E1.
    pose proof (prod_insert (<[i := b]> l) j a b) as E2.
    rewrite list_lookup_insert_ne in E2 by done. specialize (E2 Eb).
    pose proof (prod_pos l Hpos). nia.
Qed.

Section UnaryOnViews.
Context {T : Type} `{Scalar T}.

(** X10. A unary operator does not follow the strides of a view: applied
    to [transpose(t, i, j)] it returns the buffer it returns for [t], under
    the shape of the view and the dense strides of that shape, so that the
    element at coordinates [c] comes from the cell of [t] at the row-major
    index of [c] in the view's shape. *)
Theorem unary_on_view_reads_buffer_order (t v : Tensor T) (i j : nat) (c : list Z) :
  transpose t i j = Ok v ->
  fits_launch (shape t) -> length (data t) = Z.to_nat (prod (shape t)) ->
  valid_index c (shape v) ->
  data (relu v) = data (relu t) /\
  strides (relu v) = (row_major (shape v)).1 /\
  subscript (relu v) c
  = Ok (Kernel.lift1 (fun x => if s_pos x then x else s_zero)
          (Kernel.load (data t) (flat_index (shape v) c))).
Proof.
  intros E [Hpos Hfit] Hlen Hv.
  destruct (transpose_view t v i j E) as (Ed & Es & _).
  destruct (exchange_positive (shape t) i j Hpos) as [Hpos' Eprod].
  rewrite <- Es in Hpos', Eprod.
  assert (fits_launch (shape v)) as Hfit' by (split; [done | lia]).
  rewrite (relu_buffer t), (relu_buffer v) by (done || by rewrite Ed, Eprod). cbn [data strides with_data Tensor_new]. split; [by rewrite Ed|].
  split; [done|].
  rewrite subscript_dense; cbn [data strides shape with_data Tensor_new]; try done; try lia.
  f_equal. pose proof (flat_index_range _ _ Hv) as Hf.
  rewrite <- (Z2Nat.id (flat_index (shape v) c)) by lia.
  rewrite !load_lookup, list_lookup_fmap, Ed.
  by destruct (data t !! Z.to_nat (flat_index (shape v) c)) as [[u|]|].
Qed.

End UnaryOnViews.

(** ** Broadcasting *)

Lemma drop_lookup_cons {A : Type} (l : list A) (i : nat) (a : A) (rest : list A) :
  drop i l = a :: rest -> l !! i = Some a /\ drop (S i) l = rest.
Proof.
  intros E. split.
  - rewrite <- (Nat.add_0_r i), <- lookup_drop. by rewrite E.
  - replace (S i) with (i + 1)%nat by lia. by rewrite <- drop_drop, E.
Qed.

Section Decode.

(** [get_indices] on the flat index of a coordinate vector: the offsets it
    returns are the inner products of the coordinates with the two stride
    arrays. *)
Lemma get_indices_loop_decode (s s1 s2 : list Z) :
  prod s < 2 ^ 64 -> Forall (fun d => 0 < d) s ->
  (length s <= length s1)%nat -> (length s <= length s2)%nat ->
  forall (suffix csuf : list Z) (i : nat) (i0 i1 : Z),
    drop i s = suffix -> valid_index csuf suffix ->
    0 <= i0 < 2 ^ 64 -> 0 <= i1 < 2 ^ 64 ->
    Kernel.get_indices_loop (length suffix) i s1 s2 (row_major s).1
      (flat_index suffix csuf) i0 i1
    = Ok (wrap64 (i0 + dotZ (drop i s1) csuf), wrap64 (i1 + dotZ (drop i s2) csuf)).
Proof.
  intros Hlt Hpos L1 L2 suffix csuf. revert suffix.
  induction csuf as [|c0 csuf IH]; intros suffix i i0 i1 Hdrop Hv Hi0 Hi1.
  - apply Forall2_nil_inv_l in Hv as ->. cbn.
    destruct (drop i s1), (drop i s2); cbn; by rewrite !Z.add_0_r, !wrap64_small.
  - apply Forall2_cons_inv_l in Hv as (d & rest & Hc0 & Hv & ->).
    apply drop_lookup_cons in Hdrop as [Ed Hdrop'].
    pose proof (lookup_lt_Some _ _ _ Ed) as Hi.
    destruct (lookup_lt_is_Some_2 s1 i) as [x1 E1]; [lia|].
    destruct (lookup_lt_is_Some_2 s2 i) as [x2 E2]; [lia|].
    rewrite (drop_S_lookup _ _ _ E1), (drop_S_lookup _ _ _ E2).
    pose proof (prod_drop_le s (S i) Hpos) as Hp. rewrite Hdrop' in Hp.
    pose proof (prod_drop_le s i Hpos) as Hp'.
    rewrite (drop_S_lookup _ _ _ Ed), Hdrop' in Hp'.
    change (prod (d :: rest)) with (d * prod rest) in Hp'.
    pose proof (Forall_drop _ (S i) _ Hpos) as Hrest. rewrite Hdrop' in Hrest.
    pose proof (flat_index_range _ _ Hv) as Hf.
    assert ((row_major s).1 !! i = Some (prod rest)) as Est.
    { rewrite row_major_lookup by done. rewrite Hdrop'.
      by rewrite row_major_exact by (done || lia). }
    cbn [Kernel.get_indices_loop length flat_index dotZ].
    rewrite (at_Ok _ _ _ Est), (at_Ok _ _ _ E1), (at_Ok _ _ _ E2).
    cbn [mbind result_bind].
    destruct (Z.eqb_spec (prod rest) 0) as [E0|_]; [lia|].
    assert ((c0 * prod rest + flat_index rest csuf) / prod rest = c0) as ->.
    { rewrite Z.div_add_l by lia. rewrite Z.div_small; lia. }
    assert (c0 * prod rest <= c0 * prod rest + flat_index rest csuf < 2 ^ 64) by nia.
    rewrite (wrap64_small (c0 * prod rest)) by nia.
    replace (c0 * prod rest + flat_index rest csuf - c0 * prod rest)
      with (flat_index rest csuf) by lia.
    rewrite (wrap64_small (flat_index rest csuf)) by lia.
    rewrite (IH rest (S i)); try done; try apply wrap64_range.
    do 2 f_equal; wrap_ring.
Qed.

Lemma get_indices_decode (s s1 s2 c : list Z) :
  prod s < 2 ^ 64 -> valid_index c s ->
  (length s <= length s1)%nat -> (length s <= length s2)%nat ->
  Kernel.get_indices (flat_index s c) (length s) s1 s2 (row_major s).1
  = Ok (wrap64 (dotZ s1 c), wrap64 (dotZ s2 c)).
Proof.
  intros Hlt Hv L1 L2. pose proof (valid_index_pos _ _ Hv) as Hpos.
  unfold Kernel.get_indices.
  rewrite (get_indices_loop_decode s s1 s2 Hlt Hpos L1 L2 s c 0 0 0); try done; lia.
Qed.

End Decode.


Lemma dotZ_zeros (st : list Z) (k : nat) : dotZ st (replicate k 0) = 0.
Proof.
  revert k. induction st as [|s st IH]; intros [|k]; try done.
  cbn [replicate dotZ]. rewrite IH. lia.
Qed.

Lemma dotZ_suppress (c : list Z) :
  forall (st sa sb ts : list Z) (k : nat),
    (length c <= length st)%nat -> (length c <= length sa)%nat ->
    (length c <= length sb)%nat -> (length c <= length ts)%nat ->
    (forall (j : nat) (d1 d2 s : Z), (j < length c)%nat ->
       sa !! j = Some d1 -> sb !! j = Some d2 -> st !! j = Some s ->
       ts !! j = Some (if d1 <? d2 then 0 else s)) ->
    dotZ (take (length c) ts) c = dotZ st (suppress sa sb c ++ replicate k 0).
Proof.
  induction c as [|c0 c IH]; intros st sa sb ts k L0 L1 L2 L3 Hrule.
  - cbn [length take firstn dotZ].
    replace (suppress sa sb []) with (@nil Z) by (by destruct sa, sb).
    cbn [app]. by rewrite dotZ_zeros.
  - destruct st as [|s st], sa as [|d1 sa], sb as [|d2 sb], ts as [|t ts];
      cbn [length] in *; try lia.
    cbn [take firstn dotZ suppress app].
    pose proof (Hrule 0%nat d1 d2 s ltac:(lia) eq_refl eq_refl eq_refl) as E0.
    injection E0 as ->.
    rewrite (IH st sa sb ts k); try lia.
    + destruct (d1 <? d2); lia.
    + intros j e1 e2 u Hj. apply (Hrule (S j)). lia.
Qed.

Lemma suppress_length (sa sb c : list Z) :
  (length c <= length sa)%nat -> (length c <= length sb)%nat ->
  length (suppress sa sb c) = length c.
Proof.
  revert sb c. induction sa as [|d1 sa IH]; intros [|d2 sb] [|c0 c]; cbn; try done; try lia.
  intros L1 L2. f_equal. apply IH; lia.
Qed.

Lemma broadcast_shape_max (sh : list Z) :
  forall sa sb : list Z,
    length sa = length sh -> (length sh <= length sb)%nat ->
    (forall (j : nat) (d1 d2 : Z), sa !! j = Some d1 -> sb !! j = Some d2 ->
       sh !! j = Some (if d1 <? d2 then d2 else d1)) ->
    sh = zip_with Z.max sa sb.
Proof.
  induction sh as [|d sh IH]; intros [|d1 sa] [|d2 sb]; cbn; try done; try lia.
  intros L1 L2 Hrule.
  pose proof (Hrule 0%nat d1 d2 eq_refl eq_refl) as E0. injection E0 as ->.
  f_equal.
  - destruct (Z.ltb_spec d1 d2); lia.
  - apply IH; try lia. intros j. apply (Hrule (S j)).
Qed.

Section Broadcasting.
Context {T : Type} `{Scalar T}.

Lemma element_load (t : Tensor T) (c : list Z) :
  (length (strides t) <= length c)%nat ->
  element t c = Kernel.load (data t) (wrap64 (dotZ (strides t) c)).
Proof.
  intros L. unfold element, subscript.
  rewrite inner_product_dotZ by (done || lia). by cbn.
Qed.

(** A broadcasting operator on a tensor [a] and a tensor [b] of the same
    or a higher rank: the result has the rank of [a], the larger size
    along each of its dimensions and the constructor's strides, and its
    cell at the coordinates [c] combines the cell of each operand found
    through that operand's own strides, with coordinate 0 where the
    operand is the smaller one and along the trailing dimensions of [b]. *)
Lemma broadcast_op_general kernel (f : T -> T -> T) (idx : thread -> Z) (a b : Tensor T) :
  (forall n rank_ s1 s2 s t1 t2 t,
     kernel n rank_ s1 s2 s t1 t2 t = Kernel.binary f (idx t) n rank_ s1 s2 s t1 t2) ->
  (forall t, idx t = Kernel.global_x t \/ idx t = to_int (Kernel.global_x t)) ->
  consistent a -> consistent b -> (rank a <= rank b)%nat ->
  fits_launch (zip_with Z.max (shape a) (shape b)) ->
  exists out,
    broadcast_op kernel a b = Ok out /\ backward out = None /\ rank out = rank a /\
    combines_leading f a b out.
Proof.
  intros Hkernel Hidx Ca Cb Hr [Hpos Hfit].
  destruct (prepare_broadcast_Ok a b Ca Cb) as (sh & ts1 & ts2 & E & L0 & L1 & L2 & Hrule);
    [lia|].
  destruct Ca as [Sa Sta], Cb as [Sb Stb].
  assert (sh = zip_with Z.max (shape a) (shape b)) as Esh.
  { apply broadcast_shape_max; try lia. intros j d1 d2 E1 E2.
    destruct (lookup_lt_is_Some_2 (strides a) j) as [st1 Est1];
      [apply lookup_lt_Some in E1; lia|].
    destruct (lookup_lt_is_Some_2 (strides b) j) as [st2 Est2];
      [apply lookup_lt_Some in E2; lia|].
    by destruct (Hrule j d1 d2 st1 st2) as (R0 & _). }
  rewrite <- Esh in *.
  pose proof (prod_pos _ Hpos) as Hn0.
  pose proof (n_elements_exact (T := T) sh Hpos ltac:(lia)) as En.
  pose proof (Tensor_new_data (T := T) sh Hpos ltac:(lia)) as Ed.
  unfold broadcast_op. rewrite E. cbn [mbind result_bind].
  eexists. split; [done|]. split; [done|]. split; [cbn; lia|].
  split; [by cbn|]. split; [done|].
  intros c Hv. cbn [shape with_data Tensor_new] in Hv.
  pose proof (Forall2_length _ _ _ Hv) as Lc.
  pose proof (flat_index_range _ _ Hv) as Hf.
  rewrite !element_load;
    [| rewrite length_app, suppress_length, length_replicate; lia
     | rewrite suppress_length; lia
     | cbn; rewrite row_major_length; lia].
  cbn [strides data with_data Tensor_new rank n_elements size] in *.
  rewrite dotZ_row_major by (done || lia).
  rewrite <- (Z2Nat.id (flat_index sh c)) by lia. rewrite load_lookup.
  rewrite Ed, En. rewrite host_launch_1d by lia.
  erewrite launch_ext; [|intros t; apply Hkernel].
  rewrite (launch_binary_lookup f idx); try done; try lia;
    [|by rewrite length_replicate].
  cbn [mjoin option_join]. rewrite Z2Nat.id by lia.
  unfold cell_value.
  rewrite get_indices_decode by (done || rewrite ?length_take; lia).
  f_equal; f_equal; f_equal.
  - rewrite <- (app_nil_r (suppress (shape a) (shape b) c)).
    change (@nil Z) with (replicate 0 0).
    rewrite <- (take_ge ts1 (length c)) by lia.
    apply dotZ_suppress; try lia. intros j d1 d2 s Hj E1 E2 E3.
    destruct (lookup_lt_is_Some_2 (strides b) j) as [st2 Est2]; [lia|].
    by destruct (Hrule j d1 d2 s st2) as (_ & R1 & _).
  - replace (take (rank a) ts2) with (take (length c) ts2) by (f_equal; lia).
    apply dotZ_suppress; try lia. intros j d2 d1 s Hj E2 E1 E3.
    destruct (lookup_lt_is_Some_2 (strides a) j) as [st1 Est1]; [lia|].
    by destruct (Hrule j d1 d2 st1 s) as (_ & _ & R2).
Qed.

Lemma combines_equal_rank (f : T -> T -> T) (a b out : Tensor T) :
  rank a = rank b -> combines_leading f a b out -> combines f a b out.
Proof.
  intros Hr (Hs & Hst & Hc). split; [done|]. split; [done|].
  intros c Hv. rewrite (Hc c Hv), Hr, Nat.sub_diag. cbn [replicate].
  by rewrite app_nil_r.
Qed.

(** With a second operand of lower rank the resolver reads that operand's
    shape past its end. *)
Lemma broadcast_loop_short (t1 t2 : Tensor T) (k : nat) :
  forall (i : nat) (sh ts1 ts2 : list Z),
    (i + k)%nat = rank t1 -> (i <= rank t2)%nat -> (rank t2 < rank t1)%nat ->
    consistent t1 -> consistent t2 ->
    length ts1 = rank t1 -> length ts2 = rank t2 -> length sh = rank t1 ->
    broadcast_loop k i t1 t2 sh ts1 ts2 = Err OutOfRange.
Proof.
  induction k as [|k IH]; intros i sh ts1 ts2 Hik Hi Hr C1 C2 Lt1 Lt2 Lsh; [lia|].
  pose proof C1 as [Hs1 Hst1]. pose proof C2 as [Hs2 Hst2].
  destruct (lookup_lt_is_Some_2 (shape t1) i) as [d1 Ed1]; [lia|].
  cbn [broadcast_loop]. rewrite (at_Ok _ _ _ Ed1). cbn [mbind result_bind].
  destruct (decide (i = rank t2)) as [->|Hne].
  - assert (at_ (shape t2) (rank t2) = Err OutOfRange) as ->; [|done].
    unfold at_. by rewrite lookup_ge_None_2 by lia.
  - destruct (lookup_lt_is_Some_2 (shape t2) i) as [d2 Ed2]; [lia|].
    destruct (lookup_lt_is_Some_2 (strides t1) i) as [st1 Est1]; [lia|].
    destruct (lookup_lt_is_Some_2 (strides t2) i) as [st2 Est2]; [lia|].
    rewrite (at_Ok _ _ _ Ed2). cbn [mbind result_bind].
    destruct (d1 =? d2); [|destruct (d1 >? d2)];
      rewrite ?(at_Ok _ _ _ Est1), ?(at_Ok _ _ _ Est2); cbn [mbind result_bind];
      rewrite ?set_Ok by lia; cbn [mbind result_bind];
      rewrite ?(at_Ok _ _ _ Est2); cbn [mbind result_bind];
      rewrite ?set_Ok by lia; cbn [mbind result_bind];
      apply IH; rewrite ?length_insert; try done; lia.
Qed.

Lemma broadcast_op_short kernel (a b : Tensor T) :
  consistent a -> consistent b -> (rank b < rank a)%nat ->
  broadcast_op kernel a b = Err OutOfRange.
Proof.
  intros Ca Cb Hr. unfold broadcast_op, prepare_broadcast.
  rewrite broadcast_loop_short; try done; rewrite ?length_replicate; try lia.
  by destruct Ca.
Qed.

End Broadcasting.

Section BroadcastingResults.
Context {T : Type} `{Scalar T}.

(** X11. For operands of equal rank, views included, each of [+], [-], [*]
    and [/] returns a tensor whose size along every dimension is the larger
    of the two operand sizes, laid out with the constructor's strides, and
    whose element at any coordinates is the operator applied to the element
    of each operand at the same coordinates, with coordinate 0 along the
    dimensions where that operand is the smaller one; each operand is read
    through its own strides. Both operands may be the smaller one along
    different dimensions. *)
Theorem broadcast_elements (h : heap T) (a b : Tensor T) :
  consistent a -> consistent b -> rank a = rank b ->
  fits_launch (zip_with Z.max (shape a) (shape b)) ->
  (exists out, operator_add a b = Ok out /\ combines s_add a b out) /\
  (exists out, operator_sub a b = Ok out /\ combines s_sub a b out) /\
  (exists out h', operator_mul h a b = Ok (out, h') /\ combines s_mul a b out) /\
  (exists out, operator_div a b = Ok out /\ combines s_div a b out).
Proof.
  intros Ca Cb Hr Hfit.
  split; [|split; [|split]].
  - destruct (broadcast_op_general Kernel.add s_add Kernel.global_x a b)
      as (out & E & _ & _ & Hc); try done; [intros t; by left | lia |].
    exists out. split; [done|]. by apply combines_equal_rank.
  - destruct (broadcast_op_general Kernel.subtract s_sub
                (fun t => to_int (Kernel.global_x t)) a b)
      as (out & E & _ & _ & Hc); try done; [intros t; by right | lia |].
    exists out. split; [done|]. by apply combines_equal_rank.
  - destruct (broadcast_op_general Kernel.multiply s_mul Kernel.global_x a b)
      as (out & E & _ & _ & Hc); try done; [intros t; by left | lia |].
    unfold operator_mul. rewrite E. cbn [mbind result_bind new].
    eexists _, _. split; [done|]. by apply (combines_equal_rank s_mul a b out).
  - destruct (broadcast_op_general Kernel.divide s_div Kernel.global_x a b)
      as (out & E & _ & _ & Hc); try done; [intros t; by left | lia |].
    exists out. split; [done|]. by apply combines_equal_rank.
Qed.

(** X12. The operators align dimensions from the left and take the rank
    of the first operand. With a second operand of higher rank the result
    has the first operand's rank and reads the second operand at
    coordinate 0 along its trailing dimensions; with a second operand of
    lower rank the resolver indexes that operand's shape past its end. *)
Theorem operators_align_leading_dimensions (h : heap T) (a b : Tensor T) :
  consistent a -> consistent b ->
  ((rank a <= rank b)%nat -> fits_launch (zip_with Z.max (shape a) (shape b)) ->
     (exists out, operator_add a b = Ok out /\ rank out = rank a /\
                  combines_leading s_add a b out) /\
     (exists out, operator_sub a b = Ok out /\ rank out = rank a /\
                  combines_leading s_sub a b out) /\
     (exists out h', operator_mul h a b = Ok (out, h') /\ rank out = rank a /\
                     combines_leading s_mul a b out) /\
     (exists out, operator_div a b = Ok out /\ rank out = rank a /\
                  combines_leading s_div a b out)) /\
  ((rank b < rank a)%nat ->
     operator_add a b = Err OutOfRange /\ operator_sub a b = Err OutOfRange /\
     operator_mul h a b = Err OutOfRange /\ operator_div a b = Err OutOfRange).
Proof.
  intros Ca Cb. split.
  - intros Hr Hfit. split; [|split; [|split]].
    + destruct (broadcast_op_general Kernel.add s_add Kernel.global_x a b)
        as (out & E & _ & Hrk & Hc); try done; [intros t; by left|].
      by exists out.
    + destruct (broadcast_op_general Kernel.subtract s_sub
                  (fun t => to_int (Kernel.global_x t)) a b)
        as (out & E & _ & Hrk & Hc); try done; [intros t; by right|].
      by exists out.
    + destruct (broadcast_op_general Kernel.multiply s_mul Kernel.global_x a b)
        as (out & E & _ & Hrk & Hc); try done; [intros t; by left|].
      unfold operator_mul. rewrite E. cbn [mbind result_bind new].
      eexists _, _. split; [done|]. split; [done|]. exact Hc.
    + destruct (broadcast_op_general Kernel.divide s_div Kernel.global_x a b)
        as (out & E & _ & Hrk & Hc); try done; [intros t; by left|].
      by exists out.
  - intros Hr. unfold operator_add, operator_sub, operator_mul, operator_div.
    by rewrite !broadcast_op_short.
Qed.

End BroadcastingResults.


(** ** Gradient leaves and the graph *)

Section Autograd.
Context {T : Type} `{Scalar T}.

Lemma call_leaf (fuel : nat) (h : heap T) (p : nat) (l : list (Tensor T))
    (bs : list (option nat)) (g : Tensor T) :
  h !! p = Some (mkBackward AccumulateGradients l bs) ->
  call (S fuel) h p g = Ok (<[p := mkBackward AccumulateGradients (l ++ [g]) bs]> h).
Proof. intros E. cbn [call]. by rewrite (at_Ok _ _ _ E). Qed.

Lemma call_each_leaf (fuel : nat) (gs : list (Tensor T)) :
  forall (h : heap T) (p : nat) (l : list (Tensor T)) (bs : list (option nat)),
    h !! p = Some (mkBackward AccumulateGradients l bs) ->
    call_each (S fuel) h p gs
    = Ok (<[p := mkBackward AccumulateGradients (l ++ gs) bs]> h).
Proof.
  unfold call_each. induction gs as [|g gs IH]; intros h p l bs E.
  - cbn [foldl]. by rewrite app_nil_r, list_insert_id.
  - cbn [foldl mbind result_bind]. rewrite (call_leaf fuel h p l bs g E).
    pose proof (lookup_lt_Some _ _ _ E) as Lp.
    rewrite (IH _ p (l ++ [g]) bs) by (by rewrite list_lookup_insert_eq).
    by rewrite list_insert_insert_eq, <- app_assoc.
Qed.

(** X13. A tensor just given a gradient leaf has no gradient to return:
    [gradients()] reads the first entry of an empty vector. Once the leaf
    is invoked, it keeps every gradient in the order received and
    [gradients()] returns the first of them, however many follow. *)
Theorem leaf_returns_first_gradient (fuel : nat) (h0 : heap T) (a0 g : Tensor T)
    (gs : list (Tensor T)) :
  let a := (requires_gradients h0 a0).1 in
  let h := (requires_gradients h0 a0).2 in
  gradients h a = Err OutOfRange /\
  exists h',
    call_each (S fuel) h (length h0) (g :: gs) = Ok h' /\
    h' !! length h0 = Some (mkBackward AccumulateGradients (g :: gs) []) /\
    gradients h' a = Ok g.
Proof.
  cbv zeta. unfold requires_gradients, new. cbn [fst snd].
  assert ((h0 ++ [mkBackward (T := T) AccumulateGradients [] []]) !! length h0
          = Some (mkBackward AccumulateGradients [] [])) as E
    by (by rewrite list_lookup_middle).
  split.
  - unfold gradients. cbn [backward with_backward]. by rewrite (at_Ok _ _ _ E).
  - eexists. split; [by apply (call_each_leaf fuel (g :: gs) _ _ [] [])|].
    pose proof (lookup_lt_Some _ _ _ E) as Lp.
    split; [by rewrite list_lookup_insert_eq|].
    unfold gradients. cbn [backward with_backward].
    by rewrite (at_Ok _ _ (mkBackward AccumulateGradients (g :: gs) []))
      by (by rewrite list_lookup_insert_eq).
Qed.

(** X14. The graph is fixed when the product is computed: a product of
    two tensors without nodes records two null parents, so a leaf given to
    an operand afterwards receives nothing from the product's node. *)
Theorem requires_gradients_after_product (h : heap T) (a0 b0 g : Tensor T) :
  consistent a0 -> consistent b0 -> rank a0 = rank b0 ->
  backward a0 = None -> backward b0 = None ->
  exists c h1 p,
    operator_mul h a0 b0 = Ok (c, h1) /\ backward c = Some p /\
    let a := (requires_gradients h1 a0).1 in
    let h2 := (requires_gradients h1 a0).2 in
    (forall fuel, call (S fuel) h2 p g = Ok h2) /\
    gradients h2 a = Err OutOfRange.
Proof.
  intros Ca Cb Hr Na Nb.
  destruct (operator_mul_Ok h a0 b0 Ca Cb) as (c & _ & E); [lia|].
  rewrite Na, Nb in E.
  eexists _, _, (length h). split; [exact E|]. split; [done|].
  cbv zeta. unfold requires_gradients, new. cbn [fst snd].
  set (h1 := h ++ [mkBackward MultiplyBackward [a0; b0] [None; None]]).
  assert (length h1 = S (length h)) as L1 by (unfold h1; rewrite length_app; simpl; lia).
  split.
  - intros fuel. apply (call_multiply_null fuel _ _ a0 b0).
    rewrite lookup_app_l by lia. unfold h1. by rewrite list_lookup_middle.
  - unfold gradients. cbn [backward with_backward].
    by rewrite (at_Ok _ _ (mkBackward AccumulateGradients [] []))
      by (by rewrite list_lookup_middle).
Qed.



Lemma operator_mul_inv (h h' : heap T) (t1 t2 c : Tensor T) :
  operator_mul h t1 t2 = Ok (c, h') ->
  h' = h ++ [mkBackward MultiplyBackward [t1; t2] [backward t1; backward t2]] /\
  backward c = Some (length h).
Proof. unfold operator_mul, new. intros E. ok_inv E. by simplify_eq. Qed.

Lemma grows_refl (h : heap T) : grows h h.
Proof.
  intros q n E. exists []. split; [|done]. rewrite app_nil_r. by destruct n.
Qed.

Lemma grows_trans (h1 h2 h3 : heap T) : grows h1 h2 -> grows h2 h3 -> grows h1 h3.
Proof.
  intros H12 H23 q n E.
  destruct (H12 q n E) as (more & E2 & Hm).
  destruct (H23 q _ E2) as (more' & E3 & Hm'). cbn [class tensors backwards] in *.
  exists (more ++ more'). split; [by rewrite app_assoc|].
  intros Hc. by rewrite Hm, Hm'.
Qed.

Lemma grows_new (h : heap T) (n : Backward T) : grows h (h ++ [n]).
Proof.
  intros q m E. exists []. split; [|done].
  rewrite lookup_app_l by (by eapply lookup_lt_Some). rewrite app_nil_r. by destruct m.
Qed.

Lemma grows_length (h h' : heap T) : grows h h' -> (length h <= length h')%nat.
Proof.
  intros Hg. destruct (decide (length h <= length h')%nat) as [|Hlt]; [done|].
  destruct (lookup_lt_is_Some_2 h (length h')) as [n E]; [lia|].
  destruct (Hg _ _ E) as (more & E' & _). apply lookup_lt_Some in E'. lia.
Qed.

Lemma call_grows (fuel : nat) :
  forall (h : heap T) (p : nat) (g : Tensor T) (h' : heap T),
    call fuel h p g = Ok h' -> grows h h'.
Proof.
  induction fuel as [|fuel IH]; intros h p g h' E; [done|].
  cbn [call] in E.
  destruct (at_ h p) as [this|] eqn:Ep; [|done]. cbn [mbind result_bind] in E.
  apply at_Ok_inv in Ep.
  destruct (class this) eqn:Ec.
  - injection E as <-. apply grows_refl.
  - injection E as <-. intros q n Eq.
    destruct (decide (q = p)) as [->|Hne].
    + rewrite Ep in Eq. injection Eq as <-. exists [g]. split; [|done].
      rewrite list_lookup_insert_eq by (by eapply lookup_lt_Some). by rewrite Ec.
    + rewrite list_lookup_insert_ne by done. by apply grows_refl.
  - destruct (at_ (backwards this) 0) as [b0|] eqn:Eb0; [|done].
    cbn [mbind result_bind] in E.
    match type of E with mbind _ ?first = _ =>
      destruct first as [h1|] eqn:E1; [|done] end.
    cbn [mbind result_bind] in E.
    assert (grows h h1) as G1.
    { destruct b0 as [parent|]; [|by injection E1 as <-; apply grows_refl].
      destruct (at_ (tensors this) 1) as [t1|]; [|done]. cbn [mbind result_bind] in E1.
      destruct (operator_mul h g t1) as [[g1 hm]|] eqn:Em; [|done].
      cbn [mbind result_bind] in E1.
      apply operator_mul_inv in Em as [-> _].
      eapply grows_trans; [apply grows_new | by eapply IH]. }
    destruct (at_ h1 p) as [this'|]; [|done]. cbn [mbind result_bind] in E.
    destruct (at_ (backwards this') 1) as [b1|]; [|done]. cbn [mbind result_bind] in E.
    destruct b1 as [parent|]; [|by injection E as <-].
    destruct (at_ (tensors this') 0) as [t0|]; [|done]. cbn [mbind result_bind] in E.
    destruct (operator_mul h1 g t0) as [[g2 hm]|] eqn:Em; [|done].
    cbn [mbind result_bind] in E.
    apply operator_mul_inv in Em as [-> _].
    eapply grows_trans; [exact G1|].
    eapply grows_trans; [apply grows_new | by eapply IH].
Qed.

(** X16. A backward pass never removes or rewires a node: after any
    invocation that returns, every node is at its address with its class
    and its parents, a node that is not a leaf holds the tensors it held,
    and a leaf holds its former gradients followed by the new ones. The
    heap never shrinks. *)
Theorem backward_pass_only_appends (fuel : nat) (h h' : heap T) (p : nat) (g : Tensor T) :
  call fuel h p g = Ok h' -> (length h <= length h')%nat /\ grows h h'.
Proof.
  intros E. pose proof (call_grows fuel h p g h' E) as G.
  split; [by apply grows_length | done].
Qed.




Lemma broadcast_loop_fault (t1 t2 : Tensor T) (k : nat) :
  forall (i : nat) (sh ts1 ts2 : list Z) (e : fault),
    broadcast_loop k i t1 t2 sh ts1 ts2 = Err e -> e = OutOfRange.
Proof.
  induction k as [|k IH]; intros i sh ts1 ts2 e E; [done|].
  cbn [broadcast_loop] in E. unfold at_, set_ in E.
  repeat (match type of E with
          | context [match ?x with _ => _ end] => destruct x; cbn in E
          end; try congruence; try (by eapply IH)).
Qed.

Lemma operator_mul_fault (h : heap T) (t1 t2 : Tensor T) (e : fault) :
  operator_mul h t1 t2 = Err e -> e = OutOfRange.
Proof.
  unfold operator_mul, broadcast_op, prepare_broadcast. intros E.
  destruct (broadcast_loop _ _ _ _ _ _ _) as [[[sh ts1] ts2]|e'] eqn:El.
  - cbn in E. unfold take_ in E.
    repeat (match type of E with
            | context [match ?x with _ => _ end] => destruct x; cbn in E
            end; try congruence).
  - apply broadcast_loop_fault in El. cbn in E. congruence.
Qed.

Lemma parents_precede_grows (h h' : heap T) (p : nat) :
  grows h h' -> (p < length h)%nat -> parents_precede h p -> parents_precede h' p.
Proof.
  intros G Lp Hp q n' Hq E' i r Ei.
  destruct (lookup_lt_is_Some_2 h q) as [n E]; [lia|].
  destruct (G q n E) as (more & E2 & _). rewrite E' in E2. injection E2 as ->.
  by apply (Hp q n Hq E i r).
Qed.

Lemma parents_precede_le (h : heap T) (p p' : nat) :
  (p' <= p)%nat -> parents_precede h p -> parents_precede h p'.
Proof. intros Hle Hp q n Hq. apply Hp. lia. Qed.

Lemma call_terminates (fuel : nat) :
  forall (h : heap T) (p : nat) (g : Tensor T),
    (p < fuel)%nat -> parents_precede h p -> call fuel h p g <> Err OutOfFuel.
Proof.
  induction fuel as [|fuel IH]; intros h p g Hp Hord; [lia|].
  cbn [call].
  destruct (at_ h p) as [this|e] eqn:Ep;
    [|unfold at_ in Ep; by destruct (h !! p); simplify_eq].
  apply at_Ok_inv in Ep. pose proof (lookup_lt_Some _ _ _ Ep) as Lp.
  cbn [mbind result_bind].
  destruct (class this) eqn:Ec; [done | done |].
  destruct (at_ (backwards this) 0) as [b0|e] eqn:Eb0;
    [|unfold at_ in Eb0; by destruct (backwards this !! 0%nat); simplify_eq].
  apply at_Ok_inv in Eb0. cbn [mbind result_bind].
  match goal with |- mbind _ ?first <> _ => destruct first as [h1|e] eqn:E1 end.
  2: { cbn [mbind result_bind]. intros [=->].
       destruct b0 as [parent|]; [|done].
       destruct (at_ (tensors this) 1) as [t1|e] eqn:Et1;
         [|unfold at_ in Et1; by destruct (tensors this !! 1%nat); simplify_eq].
       cbn [mbind result_bind] in E1.
       destruct (operator_mul h g t1) as [[g1 hm]|e] eqn:Em;
         [|by apply operator_mul_fault in Em; simplify_eq].
       cbn [mbind result_bind] in E1.
       apply operator_mul_inv in Em as [-> _].
       pose proof (Hord p this ltac:(lia) Ep 0%nat parent Eb0) as Hlt.
       revert E1. apply IH; [lia|].
       apply (parents_precede_grows h); [apply grows_new | lia |].
       by apply (parents_precede_le h p); [lia|]. }
  cbn [mbind result_bind].
  assert (grows h h1) as G1.
  { destruct b0 as [parent|]; [|by injection E1 as <-; apply grows_refl].
    destruct (at_ (tensors this) 1) as [t1|]; [|done]. cbn [mbind result_bind] in E1.
    destruct (operator_mul h g t1) as [[g1 hm]|] eqn:Em; [|done].
    cbn [mbind result_bind] in E1.
    apply operator_mul_inv in Em as [-> _].
    eapply grows_trans; [apply grows_new | by eapply call_grows]. }
  destruct (G1 p this Ep) as (more & Ep1 & _).
  rewrite (at_Ok _ _ _ Ep1). cbn [mbind result_bind class backwards tensors].
  destruct (at_ (backwards this) 1) as [b1|e] eqn:Eb1;
    [|unfold at_ in Eb1; by destruct (backwards this !! 1%nat); simplify_eq].
  apply at_Ok_inv in Eb1. cbn [mbind result_bind].
  destruct b1 as [parent|]; [|done].
  destruct (at_ (tensors this ++ more) 0) as [t0|e] eqn:Et0;
    [|unfold at_ in Et0; by destruct ((tensors this ++ more) !! 0%nat); simplify_eq].
  cbn [mbind result_bind].
  destruct (operator_mul h1 g t0) as [[g2 hm]|e] eqn:Em;
    [|cbn [mbind result_bind]; by apply operator_mul_fault in Em; simplify_eq].
  cbn [mbind result_bind].
  apply operator_mul_inv in Em as [-> _].
  pose proof (Hord p this ltac:(lia) Ep 1%nat parent Eb1) as Hlt.
  apply IH; [lia|].
  pose proof (grows_length _ _ G1) as L1.
  apply (parents_precede_grows h1); [apply grows_new | lia |].
  apply (parents_precede_grows h); [done | lia |].
  by apply (parents_precede_le h p); [lia|].
Qed.

(** X18. The backward pass terminates. In a heap where every parent was
    created before the node that refers to it, invoking the node at
    address [p] nests at most [p + 1] invocations deep. Every heap built
    with [requires_gradients] and [*] from tensors whose nodes exist has
    that order: a new node's parents are nodes already on the heap. *)
Theorem backward_pass_terminates (h : heap T) :
  (forall (p fuel : nat) (g : Tensor T),
     parents_precede h p -> (p < fuel)%nat -> call fuel h p g <> Err OutOfFuel) /\
  ((forall q, parents_precede h q) ->
     forall (t : Tensor T) (q : nat), parents_precede (requires_gradients h t).2 q) /\
  ((forall q, parents_precede h q) ->
     forall (t1 t2 c : Tensor T) (h' : heap T),
       (forall r, backward t1 = Some r -> (r < length h)%nat) ->
       (forall r, backward t2 = Some r -> (r < length h)%nat) ->
       operator_mul h t1 t2 = Ok (c, h') -> forall q, parents_precede h' q).
Proof.
  split; [|split].
  - intros p fuel g Hord Hp. by apply call_terminates.
  - intros Hord t p q n Hq E i r Ei. unfold requires_gradients, new in E. cbn [snd] in E.
    destruct (decide (q < length h)%nat) as [Hlt|Hge].
    + rewrite lookup_app_l in E by lia. by apply (Hord q q n ltac:(lia) E i r).
    + destruct (decide (q = length h)) as [->|Hne].
      * rewrite list_lookup_middle in E by done. by simplify_eq.
      * rewrite lookup_ge_None_2 in E by (rewrite length_app; simpl; lia). done.
  - intros Hord t1 t2 c h' B1 B2 E p q n Hq Eq i r Ei.
    apply operator_mul_inv in E as [-> _].
    destruct (decide (q < length h)%nat) as [Hlt|Hge].
    + rewrite lookup_app_l in Eq by lia. by apply (Hord q q n ltac:(lia) Eq i r).
    + destruct (decide (q = length h)) as [->|Hne].
      * rewrite list_lookup_middle in Eq by done. injection Eq as <-.
        cbn [backwards] in Ei.
        destruct i as [|[|i]]; simplify_eq/=; [by apply B1 | by apply B2].
      * rewrite lookup_ge_None_2 in Eq by (rewrite length_app; simpl; lia). done.
Qed.

End Autograd.


(** ** Matrix product: what is checked *)

Lemma at_z_fault {A : Type} (l : list A) (i : Z) (e : fault) :
  at_z l i = Err e -> e = OutOfRange.
Proof.
  unfold at_z, at_. destruct (0 <=? i); [|congruence].
  destruct (l !! Z.to_nat i); congruence.
Qed.

Lemma at_z_last {A : Type} (l : list A) (v : A) :
  at_z (l ++ [v]) (Z.of_nat (length (l ++ [v])) - 1) = Ok v.
Proof.
  rewrite length_app. cbn [length].
  replace (Z.of_nat (length l + 1) - 1) with (Z.of_nat (length l)) by lia.
  apply at_z_nat. by rewrite list_lookup_middle.
Qed.

Section MatrixProductChecks.
Context {T : Type} `{Scalar T}.

(** X19. What [mm] requires of its operands. The second operand needs one
    dimension and the first two, else a shape vector is read out of range;
    a zero height or width divides by zero when the batch count is
    computed. Nothing else is compared: the result takes the shape of the
    first operand with its last size replaced by the last size of the
    second, whatever the other sizes of the second operand are. *)
Theorem mm_operand_checks (a b : Tensor T) :
  (shape b = [] -> mm a b = Err OutOfRange) /\
  ((length (shape a) < 2)%nat -> mm a b = Err OutOfRange) /\
  (forall (bs sb : list Z) (h s w : Z),
     shape a = bs ++ [h; s] -> shape b = sb ++ [w] ->
     wrap64 (wrap64 h * wrap64 w) = 0 -> mm a b = Err DivisionByZero) /\
  (forall (bs sb : list Z) (h s w : Z),
     shape a = bs ++ [h; s] -> shape b = sb ++ [w] ->
     wrap64 (wrap64 h * wrap64 w) <> 0 ->
     (length bs + 2 <= length (strides a))%nat ->
     (length bs + 2 <= length (strides b))%nat ->
     exists c, mm a b = Ok c /\ shape c = bs ++ [h; w] /\
       rank c = (length bs + 2)%nat /\ strides c = (row_major (bs ++ [h; w])).1 /\
       backward c = None).
Proof.
  split; [|split; [|split]].
  - intros Eb. unfold mm. by rewrite Eb.
  - intros Hlen. unfold mm.
    destruct (at_z (shape b) _) as [back2|e] eqn:E;
      [|by rewrite (at_z_fault _ _ _ E)].
    cbn [mbind result_bind].
    destruct (shape a) as [|d [|d' l]]; [done | done | simpl in Hlen; lia].
  - intros bs sb h s w Ea Eb Hz. unfold mm. rewrite Ea, Eb.
    rewrite at_z_last. cbn [mbind result_bind].
    rewrite decide_True by (rewrite length_app; simpl; lia).
    cbn [mbind result_bind]. rewrite insert_last. cbn [shape rank Tensor_new].
    rewrite (proj1 (at_z_last2 bs h w)), (proj2 (at_z_last2 bs h w)).
    cbn [mbind result_bind].
    rewrite (proj2 (at_z_last2 bs h s)). cbn [mbind result_bind].
    by rewrite Hz.
  - intros bs sb h s w Ea Eb Hnz La Lb. unfold mm. rewrite Ea, Eb.
    rewrite at_z_last. cbn [mbind result_bind].
    rewrite decide_True by (rewrite length_app; simpl; lia).
    cbn [mbind result_bind]. rewrite insert_last. cbn [shape rank Tensor_new].
    rewrite (proj1 (at_z_last2 bs h w)), (proj2 (at_z_last2 bs h w)).
    cbn [mbind result_bind].
    rewrite (proj2 (at_z_last2 bs h s)). cbn [mbind result_bind].
    destruct (Z.eqb_spec (wrap64 (wrap64 h * wrap64 w)) 0) as [E0|_]; [done|].
    rewrite !take_Ok by (rewrite length_app; simpl; lia).
    cbn [mbind result_bind]. eexists. split; [done|]. cbn.
    rewrite length_app. by cbn.
Qed.

(** X25. [mm] never looks at the outcome of its launch. When the result
    has more than 65535 batches or more than [16 * 65535] columns, the
    runtime refuses the grid, no thread runs, and [mm] returns the tensor
    as the constructor made it, without an error. *)
Theorem mm_beyond_grid_limits (a b : Tensor T) (bs sb : list Z) (h s w : Z) :
  shape a = bs ++ [h; s] -> shape b = sb ++ [w] ->
  (length bs + 2 <= length (strides a))%nat ->
  (length bs + 2 <= length (strides b))%nat ->
  fits_launch (bs ++ [h; w]) ->
  65535 < prod bs \/ 16 * 65535 < w ->
  mm a b = Ok (Tensor_new (bs ++ [h; w])).
Proof.
  intros Ea Eb La Lb [Hpos Hfit] Hbig.
  pose proof Hpos as Hpos'. apply Forall_app in Hpos' as [Hbs Hhw].
  assert (0 < h /\ 0 < w) as [Hh Hw].
  { inversion Hhw as [|? ? ? Hw']; subst. inversion Hw'; subst. done. }
  pose proof (prod_pos bs Hbs) as Hpb.
  assert (prod (bs ++ [h; w]) = prod bs * h * w) as Eprod
    by (rewrite prod_app; unfold prod; simpl; lia).
  rewrite Eprod in Hfit.
  assert (h * w <= prod bs * h * w) by nia.
  assert (h < 2 ^ 31 /\ w < 2 ^ 31) as [Hh31 Hw31] by nia.
  assert (prod bs < 2 ^ 31) as Hb31 by nia.
  assert (n_elements (Tensor_new (T := T) (bs ++ [h; w])) = prod bs * h * w) as En
    by (rewrite n_elements_exact by (done || lia); done).
  unfold mm. rewrite Ea, Eb.
  rewrite at_z_last. cbn [mbind result_bind].
  rewrite decide_True by (rewrite length_app; simpl; lia).
  cbn [mbind result_bind]. rewrite insert_last. cbn [shape rank Tensor_new].
  rewrite (proj1 (at_z_last2 bs h w)), (proj2 (at_z_last2 bs h w)).
  cbn [mbind result_bind].
  rewrite (proj2 (at_z_last2 bs h s)). cbn [mbind result_bind].
  rewrite (wrap64_small h), (wrap64_small w) by lia.
  rewrite (wrap64_small (h * w)) by nia.
  destruct (Z.eqb_spec (h * w) 0) as [E0|_]; [nia|].
  rewrite !take_Ok by (rewrite length_app; simpl; lia).
  cbn [mbind result_bind]. rewrite En.
  change (x (dim3_3 16 16 1)) with 16. change (y (dim3_3 16 16 1)) with 16.
  replace (prod bs * h * w / (h * w)) with (prod bs)
    by (rewrite <- Z.mul_assoc, Z.div_mul; lia).
  unfold Kernel.host_launch.
  assert (Kernel.accepted
            (dim3_3 (wrap64 (wrap64 (h + 16) - 1) / 16)
                    (wrap64 (wrap64 (w + 16) - 1) / 16) (prod bs))
            (dim3_3 16 16 1) = false) as ->; [|done].
  unfold dim3_3.
  rewrite (wrap64_small (h + 16)), (wrap64_small (w + 16)) by lia.
  rewrite (wrap64_small (h + 16 - 1)), (wrap64_small (w + 16 - 1)) by lia.
  replace (h + 16 - 1) with (h + 15) by lia. replace (w + 16 - 1) with (w + 15) by lia.
  rewrite (wrap32_small ((h + 15) / 16)), (wrap32_small ((w + 15) / 16)),
    (wrap32_small (prod bs)).
  2: lia.
  2: { split; [apply Z.div_pos; lia|]. apply Z.div_lt_upper_bound; lia. }
  2: { split; [apply Z.div_pos; lia|]. apply Z.div_lt_upper_bound; lia. }
  apply not_true_is_false. unfold Kernel.accepted. cbn [x y z].
  rewrite !andb_true_iff, !Z.leb_le.
  intros ((((((((((((_ & _) & _) & Hy) & _) & Hz) & _) & _) & _) & _) & _) & _) & _).
  destruct Hbig as [Hbig|Hbig]; [lia|].
  assert (65536 <= (w + 15) / 16) by (apply Z.div_le_lower_bound; lia). lia.
Qed.

End MatrixProductChecks.


(** ** Reductions *)

Section ReductionResults.
Context {T : Type} `{Scalar T}.

Lemma run_same_store (v : option T) (ws : list (Z * option T)) :
  forall out : list (option T),
    ws <> [] -> Forall (fun w => w = (0, v)) ws ->
    Kernel.run out ws = <[0%nat := v]> out.
Proof.
  induction ws as [|w ws IH]; intros out Hne Hall; [done|].
  apply Forall_cons in Hall as [-> Hall].
  unfold Kernel.run. cbn [foldl fst snd]. fold (Kernel.run (Kernel.store out 0 v) ws).
  unfold Kernel.store. cbn.
  destruct ws as [|w' ws']; [done|].
  rewrite IH by done. by rewrite list_insert_insert_eq.
Qed.

Lemma sum_loop (vs : list T) :
  forall (pre : list T) (acc : T),
    foldl (fun acc i => Kernel.lift2 s_add acc (Kernel.load (Some <$> (pre ++ vs)) i))
          (Some acc) (seqZ (Z.of_nat (length pre)) (Z.of_nat (length vs)))
    = Some (foldl s_add acc vs).
Proof.
  induction vs as [|v vs IH]; intros pre acc; [done|].
  cbn [length]. rewrite seqZ_cons by lia. cbn [foldl].
  rewrite load_lookup, list_lookup_fmap, list_lookup_middle by done. cbn.
  replace (Z.succ (Z.of_nat (length pre))) with (Z.of_nat (length (pre ++ [v])))
    by (rewrite length_app; simpl; lia).
  replace (Z.pred (Z.of_nat (S (length vs)))) with (Z.of_nat (length vs)) by lia.
  replace (pre ++ v :: vs) with ((pre ++ [v]) ++ vs) by (by rewrite <- app_assoc).
  apply IH.
Qed.

(** X20. The [sum] kernel, which no operation launches: every thread adds
    up the first [n] cells of the input from zero, front to back, and
    stores the total in cell 0, so that any launch with at least one
    thread leaves the total there and the other cells as they were. The
    count is taken below [2^31], the range of the kernel's [int] loop
    variable. *)
Theorem sum_kernel_total (grid block : dim3) (vs : list T) (out : list (option T)) :
  0 < x grid -> 0 < y grid -> 0 < z grid ->
  0 < x block -> 0 < y block -> 0 < z block ->
  Z.of_nat (length vs) < 2 ^ 31 ->
  Kernel.launch grid block (Kernel.sum (Z.of_nat (length vs)) (Some <$> vs)) out
  = <[0%nat := Some (foldl s_add s_zero vs)]> out.
Proof.
  intros Hgx Hgy Hgz Hbx Hby Hbz _. unfold Kernel.launch.
  apply run_same_store.
  - assert (Thread (Dim3 0 0 0) block (Dim3 0 0 0) ∈ threads grid block) as Hin
      by (apply elem_of_threads; cbn; repeat split; lia).
    intros Hnil.
    assert ((0, Some (foldl s_add s_zero vs))
              ∈ threads grid block ≫=
                  Kernel.sum (Z.of_nat (length vs)) (Some <$> vs)) as Hin'.
    { apply list_elem_of_bind. eexists. split; [|exact Hin].
      unfold Kernel.sum. apply list_elem_of_singleton. f_equal.
      symmetry. apply (sum_loop vs [] s_zero). }
    rewrite Hnil in Hin'. by apply elem_of_nil in Hin'.
  - apply Forall_forall. intros w Hw.
    apply list_elem_of_bind in Hw as (t & Hw & _).
    unfold Kernel.sum in Hw. apply list_elem_of_singleton in Hw as ->.
    f_equal. apply (sum_loop vs [] s_zero).
Qed.

(** X21. The public [sum], on every input: a tensor of the input's rank and
    of size 1 along every dimension. With a positive element count its one
    element is one or zero according to the sign of the first cell of the
    input, the other cells being left unread; with a zero element count
    the one cell is left as allocated. *)
Theorem sum_returns_sign_of_first_cell (input : Tensor T) :
  shape (sum input) = replicate (rank input) 1 /\
  rank (sum input) = rank input /\
  backward (sum input) = None /\
  (0 < n_elements input ->
     subscript (sum input) (replicate (rank input) 0)
     = Ok (Kernel.lift1 (fun v => if s_pos v then s_one else s_zero)
             (Kernel.load (data input) 0))) /\
  (n_elements input <= 0 -> data (sum input) = [None]).
Proof.
  destruct (sum_is_relu_d_of_first input) as (Es & Er & Ed).
  split; [done|]. split; [done|]. split; [done|]. split.
  - intros Hn. unfold subscript.
    rewrite inner_product_dotZ
      by (cbn; rewrite ?row_major_length, ?length_replicate; lia).
    cbn [mbind result_bind]. rewrite dotZ_zeros, Ed.
    by rewrite (proj2 (Z.ltb_lt 0 (n_elements input))) by done.
  - intros Hn. rewrite Ed. by rewrite (proj2 (Z.ltb_ge 0 (n_elements input))) by done.
Qed.

End ReductionResults.


(** ** The constructor *)

Lemma count_from_zero (s : list Z) :
  foldl (fun acc d => wrap64 (acc * wrap64 d)) 0 s = 0.
Proof. induction s as [|d s IH]; [done|]. cbn [foldl]. by rewrite Z.mul_0_l. Qed.

Lemma count_with_zero (s : list Z) :
  0 ∈ s -> forall acc, foldl (fun acc d => wrap64 (acc * wrap64 d)) acc s = 0.
Proof.
  induction s as [|d s IH]; intros Hin acc; [by apply elem_of_nil in Hin|].
  cbn [foldl]. apply elem_of_cons in Hin as [<-|Hin]; [|by apply IH].
  change (wrap64 0) with 0. rewrite Z.mul_0_r. change (wrap64 0) with 0.
  apply count_from_zero.
Qed.

Section Constructor.
Context {T : Type} `{Scalar T}.

(** X22. The constructor. The rank is the length of the shape and there is
    no node. For positive sizes whose product is below [2^64] the element
    count is that product, and below [2^32] the buffer has one cell per
    element, each indeterminate until written; the empty shape gives one
    element. A shape with a zero size gives no element and an empty
    buffer. *)
Theorem constructor_counts (s : list Z) :
  rank (Tensor_new (T := T) s) = length s /\
  backward (Tensor_new (T := T) s) = None /\
  n_elements (Tensor_new (T := T) []) = 1 /\
  (Forall (fun d => 0 < d) s -> prod s < 2 ^ 64 ->
     n_elements (Tensor_new (T := T) s) = prod s /\
     size (Tensor_new (T := T) s) = wrap64 (prod s * s_sizeof)) /\
  (Forall (fun d => 0 < d) s -> prod s < 2 ^ 32 ->
     data (Tensor_new (T := T) s) = replicate (Z.to_nat (prod s)) None) /\
  (0 ∈ s ->
     n_elements (Tensor_new (T := T) s) = 0 /\ data (Tensor_new (T := T) s) = []).
Proof.
  split; [done|]. split; [done|]. split; [done|]. split; [|split].
  - intros Hpos Hlt. pose proof (n_elements_exact (T := T) s Hpos Hlt) as En.
    split; [done|]. cbn [size Tensor_new n_elements] in *. by rewrite En.
  - intros Hpos Hlt. by apply Tensor_new_data.
  - intros Hin. cbn [n_elements data Tensor_new].
    rewrite (count_with_zero s Hin). split; [done|].
    unfold cudaMalloc. rewrite Z.mul_0_l. change (wrap64 0) with 0.
    by rewrite Z.div_0_l by (pose proof s_sizeof_range; lia).
Qed.

End Constructor.


(** ** Printing *)

Lemma flat_index_app (s1 s2 c1 c2 : list Z) :
  length c1 = length s1 ->
  flat_index (s1 ++ s2) (c1 ++ c2) = flat_index s1 c1 * prod s2 + flat_index s2 c2.
Proof.
  revert c1. induction s1 as [|d s1 IH]; intros [|i c1] Hlen; simplify_eq/=; [lia|].
  rewrite IH by done. rewrite prod_app. lia.
Qed.

Lemma flat_index_zeros (s : list Z) (n : nat) : flat_index s (replicate n 0) = 0.
Proof.
  revert n. induction s as [|d s IH]; intros [|n]; try done.
  cbn [replicate flat_index]. rewrite IH. lia.
Qed.

Lemma valid_index_zeros (s : list Z) :
  Forall (fun d => 0 < d) s -> valid_index (replicate (length s) 0) s.
Proof. induction 1; constructor; [lia | done]. Qed.

Lemma flat_index_inj (s c c' : list Z) :
  valid_index c s -> valid_index c' s -> flat_index s c = flat_index s c' -> c = c'.
Proof.
  intros Hv. revert c'. induction Hv as [|i d c s Hi Hv IH]; intros c' Hv' E.
  - by apply Forall2_nil_inv_r in Hv'.
  - apply Forall2_cons_inv_r in Hv' as (i' & c'' & Hi' & Hv' & ->).
    cbn [flat_index] in E.
    pose proof (flat_index_range _ _ Hv). pose proof (flat_index_range _ _ Hv').
    destruct (mixed_radix_inj (prod s) i i' (flat_index s c) (flat_index s c''))
      as [-> E']; try done.
    f_equal. by apply IH.
Qed.

Section PrintingResults.
Context {T : Type} `{Scalar T}.

Lemma values_app (out out' : list (token T)) : values (out ++ out') = values out ++ values out'.
Proof. apply omap_app. Qed.

Lemma depth_app (out out' : list (token T)) : depth (out ++ out') = depth out + depth out'.
Proof.
  induction out as [|tok out IH]; [done|].
  change (weight tok + depth (out ++ out') = weight tok + depth out + depth out').
  rewrite IH. lia.
Qed.

Lemma values_brackets (n : nat) : values (T := T) (brackets n) = [].
Proof. induction n as [|n IH]; [done|]. done. Qed.

Lemma depth_brackets (n : nat) : depth (T := T) (brackets n) = Z.of_nat n.
Proof.
  induction n as [|n IH]; [done|].
  change (depth (brackets (S n))) with (1 + depth (T := T) (brackets n)). lia.
Qed.

Lemma footer_numbers (f : Z -> Z) (l : list Z) :
  values (T := T) (l ≫= fun d => [Number (f d); Text ", "]) = [] /\
  depth (T := T) (l ≫= fun d => [Number (f d); Text ", "]) = 0.
Proof.
  induction l as [|d l [IH1 IH2]]; [done|]. split.
  - by rewrite bind_cons, values_app, IH1.
  - by rewrite bind_cons, depth_app, IH2.
Qed.

Lemma subscript_element (t : Tensor T) (c : list Z) :
  (length (strides t) <= length c)%nat -> subscript t c = Ok (element t c).
Proof.
  intros L. unfold element, subscript.
  by rewrite inner_product_dotZ by (done || lia).
Qed.

(** One run of the inner loop on the coordinates [pre] followed by zeros:
    it steps to the next coordinate vector in row-major order, or back to
    all zeros after the last one, and prints no element. *)
Lemma advance_spec (t : Tensor T) (pre : list Z) :
  forall (spre ssuf : list Z) (out : list (token T)),
    shape t = spre ++ ssuf -> rank t = length (shape t) ->
    Forall (fun d => d < 2 ^ 31) (shape t) -> valid_index pre spre ->
    exists c' out',
      advance (length pre) t (pre ++ replicate (length ssuf) 0) out = Ok (c', out') /\
      values out' = values out /\
      ((flat_index spre pre + 1 < prod spre /\
        depth out' = depth out + Z.of_nat (rank t) - Z.of_nat (length pre) /\
        exists pre', c' = pre' ++ replicate (length ssuf) 0 /\ valid_index pre' spre /\
                     flat_index spre pre' = flat_index spre pre + 1) \/
       (flat_index spre pre + 1 = prod spre /\
        depth out' = depth out - Z.of_nat (length pre) /\
        c' = replicate (length spre + length ssuf) 0)).
Proof.
  induction pre as [|i pre0 IH] using rev_ind; intros spre ssuf out Es Er Hint Hv.
  - apply Forall2_nil_inv_l in Hv as ->. exists (replicate (length ssuf) 0), out.
    split; [done|]. split; [done|]. right. split; [done|]. split; [cbn; lia | done].
  - apply Forall2_app_inv_l in Hv as (spre0 & sd & Hv0 & Hvd & ->).
    apply Forall2_cons_inv_l in Hvd as (d & snil & Hi & Hnil & ->).
    apply Forall2_nil_inv_l in Hnil as ->.
    pose proof (Forall2_length _ _ _ Hv0) as L0.
    pose proof (flat_index_range _ _ Hv0) as Hf0.
    assert (d < 2 ^ 31) as Hd.
    { rewrite Forall_forall in Hint. apply Hint. rewrite Es.
      apply elem_of_app. left. apply elem_of_app. right. by apply list_elem_of_singleton. }
    assert (flat_index (spre0 ++ [d]) (pre0 ++ [i]) = flat_index spre0 pre0 * d + i) as Ef.
    { rewrite flat_index_app by done. unfold prod. cbn. lia. }
    assert (prod (spre0 ++ [d]) = prod spre0 * d) as Ep
      by (rewrite prod_app; unfold prod; cbn; lia).
    rewrite Ef, Ep. rewrite !length_app. cbn [length].
    replace (length pre0 + 1)%nat with (S (length pre0)) by lia.
    cbn [advance].
    rewrite (at_Ok ((pre0 ++ [i]) ++ replicate (length ssuf) 0) (length pre0) i)
      by (rewrite <- app_assoc; by apply list_lookup_middle).
    cbn [mbind result_bind].
    rewrite (at_Ok (shape t) (length pre0) d)
      by (rewrite Es, <- app_assoc; by apply list_lookup_middle).
    cbn [mbind result_bind].
    rewrite (to_int_small (d - 1)) by lia.
    assert (length ((pre0 ++ [i]) ++ replicate (length ssuf) 0)
            = S (length pre0 + length ssuf)) as Lc
      by (rewrite !length_app, length_replicate; simpl; lia).
    destruct (Z.ltb_spec i (d - 1)) as [Hlt|Hge].
    + rewrite (to_int_small (i + 1)) by lia.
      rewrite set_Ok by lia. cbn [mbind result_bind].
      eexists _, _. split; [done|].
      split; [by rewrite values_app, values_brackets, app_nil_r|].
      left. split; [nia|]. split.
      { rewrite depth_app, depth_brackets.
        assert (length pre0 < rank t)%nat
          by (rewrite Er, Es, !length_app; simpl; lia).
        lia. }
      exists (pre0 ++ [i + 1]). split; [|split].
      * rewrite <- !app_assoc. cbn [app]. by rewrite insert_app_r_alt, Nat.sub_diag by lia.
      * apply Forall2_app; [done|]. constructor; [lia | constructor].
      * rewrite flat_index_app by done. unfold prod. cbn. lia.
    + rewrite set_Ok by lia. cbn [mbind result_bind].
      assert (<[length pre0 := 0]> ((pre0 ++ [i]) ++ replicate (length ssuf) 0)
              = pre0 ++ replicate (length (d :: ssuf)) 0) as ->.
      { rewrite <- !app_assoc. cbn [app]. by rewrite insert_app_r_alt, Nat.sub_diag by lia. }
      destruct (IH spre0 (d :: ssuf) (out ++ [Text "]"]))
        as (c' & out' & E & Hvals & Hcase); try done.
      { by rewrite Es, <- app_assoc. }
      exists c', out'. split; [done|].
      split; [by rewrite Hvals, values_app, app_nil_r|].
      assert (depth (out ++ [Text (T := T) "]"]) = depth out - 1) as Ed
        by (rewrite depth_app; change (depth [Text (T := T) "]"]) with (-1); lia).
      destruct Hcase as [(Hlt0 & Hdep & pre0' & -> & Hv0' & Ef0')
                        |(Heq0 & Hdep & ->)].
      * left. split; [nia|]. split; [lia|].
        exists (pre0' ++ [0]). split; [|split].
        -- by rewrite <- app_assoc.
        -- apply Forall2_app; [done|]. constructor; [lia | constructor].
        -- rewrite flat_index_app by (by apply Forall2_length in Hv0').
           unfold prod. cbn. nia.
      * right. split; [nia|]. split; [lia|]. f_equal. cbn [length]. lia.
Qed.

(** The outer loop from the coordinates [c] to the end of the tensor. *)
Lemma print_elements_spec (t : Tensor T) (n : nat) :
  forall (c : list Z) (out : list (token T)),
    consistent t -> Forall (fun d => d < 2 ^ 31) (shape t) ->
    valid_index c (shape t) ->
    Z.of_nat n = prod (shape t) - flat_index (shape t) c ->
    exists out' vs,
      print_elements n t c out = Ok (replicate (length (shape t)) 0, out') /\
      values out' = values out ++ vs /\ length vs = n /\
      depth out' = depth out - Z.of_nat (rank t) /\
      forall c0, valid_index c0 (shape t) ->
        flat_index (shape t) c <= flat_index (shape t) c0 ->
        vs !! Z.to_nat (flat_index (shape t) c0 - flat_index (shape t) c)
        = Some (element t c0).
Proof.
  induction n as [|n IH]; intros c out Ct Hint Hv Hn.
  { pose proof (flat_index_range _ _ Hv). lia. }
  pose proof Ct as [Hs Hst].
  pose proof (Forall2_length _ _ _ Hv) as Lc.
  pose proof (flat_index_range _ _ Hv) as Hf.
  cbn [print_elements]. rewrite subscript_element by lia. cbn [mbind result_bind].
  destruct (advance_spec t c (shape t) [] (out ++ [Value (element t c); Text ", "]))
    as (c' & out' & E & Hvals & Hcase); try done; [by rewrite app_nil_r|].
  cbn [length replicate] in E, Hcase. rewrite app_nil_r in E.
  rewrite <- Hs, <- Lc, E. cbn [mbind result_bind].
  rewrite values_app in Hvals. cbn in Hvals.
  assert (depth (out ++ [Value (element t c); Text ", "]) = depth out) as Ed
    by (rewrite depth_app; change (depth [Value (element t c); Text ", "]) with 0; lia).
  destruct Hcase as [(Hlt & Hdep & c1 & -> & Hv1 & Ef1)|(Heq & Hdep & ->)].
  - rewrite app_nil_r in *.
    destruct (IH c1 out') as (out'' & vs & E' & Hvals' & Lvs & Hdep' & Hall);
      try done; [lia|].
    exists out'', (element t c :: vs). rewrite Lc. split; [done|].
    split; [by rewrite Hvals', Hvals, <- app_assoc|].
    split; [by cbn; rewrite Lvs|]. split; [lia|].
    intros c0 Hv0 Hle.
    destruct (decide (flat_index (shape t) c0 = flat_index (shape t) c)) as [E0|Hne].
    + assert (c0 = c) as -> by (by apply (flat_index_inj (shape t))).
      by rewrite Z.sub_diag.
    + replace (Z.to_nat (flat_index (shape t) c0 - flat_index (shape t) c))
        with (S (Z.to_nat (flat_index (shape t) c0 - flat_index (shape t) c1))) by lia.
      exact (Hall c0 Hv0 ltac:(lia)).
  - assert (n = 0%nat) as -> by lia. cbn [print_elements].
    exists out', [element t c].
    split; [by rewrite Nat.add_0_r, Lc|].
    split; [done|]. split; [done|]. split; [lia|].
    intros c0 Hv0 Hle. pose proof (flat_index_range _ _ Hv0).
    assert (flat_index (shape t) c0 = flat_index (shape t) c) as E0 by lia.
    assert (c0 = c) as -> by (by apply (flat_index_inj (shape t))).
    by rewrite Z.sub_diag.
Qed.

(** X23. Printing a tensor of positive sizes visits every coordinate
    vector once, in row-major order of the shape, and prints the element
    found there through the strides, so that a transposed view is printed
    transposed; the brackets printed balance. *)
Theorem print_visits_row_major (out0 : list (token T)) (t : Tensor T) :
  consistent t -> Forall (fun d => 0 < d) (shape t) ->
  n_elements t = prod (shape t) -> prod (shape t) < 2 ^ 31 ->
  exists out vs,
    operator_lshift out0 t = Ok out /\
    values out = values out0 ++ vs /\
    length vs = Z.to_nat (prod (shape t)) /\
    depth out = depth out0 /\
    forall c, valid_index c (shape t) ->
      vs !! Z.to_nat (flat_index (shape t) c) = Some (element t c).
Proof.
  intros Ct Hpos En Hlt. pose proof Ct as [Hs Hst].
  pose proof (prod_pos _ Hpos) as Hp.
  assert (Forall (fun d => d < 2 ^ 31) (shape t)) as Hint.
  { apply Forall_forall. intros d Hd.
    apply list_elem_of_lookup_1 in Hd as [i Ei].
    pose proof (prod_drop_le (shape t) i Hpos) as Hle.
    rewrite (drop_S_lookup _ _ _ Ei) in Hle.
    pose proof (Forall_drop _ (S i) _ Hpos) as Hrest.
    assert (0 < d) by (rewrite Forall_forall in Hpos; apply Hpos;
                       by eapply list_elem_of_lookup_2).
    pose proof (prod_cons_le d _ ltac:(done) Hrest). lia. }
  pose proof (valid_index_zeros _ Hpos) as Hv0.
  destruct (print_elements_spec t (Z.to_nat (prod (shape t)))
              (replicate (length (shape t)) 0) (out0 ++ brackets (rank t)))
    as (out' & vs & E & Hvals & Lvs & Hdep & Hall); try done.
  { rewrite flat_index_zeros. lia. }
  rewrite Hs in E. unfold operator_lshift. rewrite En, E.
  cbn [mbind result_bind].
  destruct (footer_numbers wrap64 (shape t)) as [V1 D1].
  destruct (footer_numbers (fun d => d) (strides t)) as [V2 D2].
  eexists _, vs. split; [done|].
  split.
  { rewrite !values_app, Hvals, V1, V2, values_app, values_brackets. cbn.
    by rewrite !app_nil_r. }
  split; [done|]. split.
  { assert (depth (T := T) [Text newline; Text "shape = ("] = 0) as F1 by reflexivity.
    assert (forall a : Z,
              depth (T := T) [Text "), "; Text "rank = "; Number a; Text ", ";
                              Text "strides = ("] = 0) as F2 by reflexivity.
    assert (forall a b : Z,
              depth (T := T) [Text "), "; Text "n_elements = "; Number a; Text ", ";
                              Text "size = "; Number b; Text ", "; Text newline] = 0)
      as F3 by reflexivity.
    rewrite !depth_app, Hdep, D1, D2, F1, F2, F3, depth_app, depth_brackets. lia. }
  intros c Hv. specialize (Hall c Hv).
  rewrite flat_index_zeros, Z.sub_0_r in Hall. apply Hall.
  pose proof (flat_index_range _ _ Hv). lia.
Qed.

End PrintingResults.


(** ** Thread order *)

Section ThreadOrder.
Context {T : Type} `{Scalar T}.

(** Stores that agree on every cell they share can be applied in any
    order. *)
Lemma run_perm (out : list (option T)) (ws ws' : list (Z * option T)) :
  (forall p v v', (p, v) ∈ ws -> (p, v') ∈ ws -> v = v') ->
  ws' ≡ₚ ws -> Kernel.run out ws' = Kernel.run out ws.
Proof.
  intros Hagree Hperm. apply list_eq. intros k.
  destruct (decide (k < length out)%nat) as [Hk|Hk].
  2: { by rewrite !lookup_ge_None_2 by (rewrite run_length; lia). }
  rewrite <- (Nat2Z.id k).
  destruct (decide (Exists (fun w => w.1 = Z.of_nat k) ws)) as [Hex|Hno].
  - apply Exists_exists in Hex as ([p v] & Hin & Hp). cbn in Hp. subst p.
    rewrite !(run_lookup _ _ (Z.of_nat k) v); try done; try lia.
    + intros v' Hin'. by apply (Hagree (Z.of_nat k)).
    + by rewrite Hperm.
    + intros v' Hin'. rewrite Hperm in Hin'. by apply (Hagree (Z.of_nat k)).
  - rewrite !run_lookup_other; try done; try lia.
    + intros v Hin. apply Hno, Exists_exists. by exists (Z.of_nat k, v).
    + intros v Hin. rewrite Hperm in Hin.
      apply Hno, Exists_exists. by exists (Z.of_nat k, v).
Qed.

(** A kernel in which the value a thread stores is determined by the cell
    it stores to. *)
Lemma order_free_intro (kernel : thread -> list (Z * option T)) (val : Z -> option T) :
  (forall t p v, (p, v) ∈ kernel t -> v = val p) -> order_free kernel.
Proof.
  intros Hval grid block out ws Hperm. unfold Kernel.launch.
  apply run_perm; [|done].
  intros p v v' (t & Hin & _)%list_elem_of_bind (t' & Hin' & _)%list_elem_of_bind.
  by rewrite (Hval t p v Hin), (Hval t' p v' Hin').
Qed.

Lemma binary_order_free (f : T -> T -> T) (idx : thread -> Z) n rank_ s1 s2 s t1 t2 :
  order_free (fun t => Kernel.binary f (idx t) n rank_ s1 s2 s t1 t2).
Proof.
  apply (order_free_intro _ (fun p => cell_value f rank_ s1 s2 s t1 t2 (wrap64 p))).
  intros t p v Hin. by apply binary_elem in Hin as (-> & _ & ->).
Qed.

Lemma unary_order_free (g : T -> T) (n : Z) (input : list (option T)) :
  order_free (fun t =>
    if wrap64 (to_int (Kernel.global_x t)) <? n
    then [(to_int (Kernel.global_x t),
           Kernel.lift1 g (Kernel.load input (to_int (Kernel.global_x t))))]
    else []).
Proof.
  apply (order_free_intro _ (fun p => Kernel.lift1 g (Kernel.load input p))).
  intros t p v Hin. destruct (_ <? _); [|by apply elem_of_nil in Hin].
  apply list_elem_of_singleton in Hin. by simplify_eq.
Qed.

(** X24. No launch of an elementwise, unary or reduction kernel depends
    on the order in which its threads run: two threads that store to the
    same cell store the same value there, so that applying the stores of a
    launch in any order gives the buffer the launch gives. *)
Theorem launches_do_not_depend_on_thread_order
    (n : Z) (rank_ : nat) (s1 s2 s : list Z) (t1 t2 input : list (option T)) :
  order_free (Kernel.add n rank_ s1 s2 s t1 t2) /\
  order_free (Kernel.subtract n rank_ s1 s2 s t1 t2) /\
  order_free (Kernel.multiply n rank_ s1 s2 s t1 t2) /\
  order_free (Kernel.divide n rank_ s1 s2 s t1 t2) /\
  order_free (Kernel.negate n input) /\
  order_free (Kernel.relu n input) /\
  order_free (Kernel.relu_d n input) /\
  order_free (Kernel.sum n input).
Proof.
  repeat split.
  - apply (binary_order_free s_add Kernel.global_x).
  - apply (binary_order_free s_sub (fun t => to_int (Kernel.global_x t))).
  - apply (binary_order_free s_mul Kernel.global_x).
  - apply (binary_order_free s_div Kernel.global_x).
  - apply (unary_order_free s_neg).
  - apply (unary_order_free (fun v => if s_pos v then v else s_zero)).
  - apply (unary_order_free (fun v => if s_pos v then s_one else s_zero)).
  - apply (order_free_intro _
             (fun _ => foldl (fun acc i => Kernel.lift2 s_add acc (Kernel.load input i))
                         (Some s_zero) (seqZ 0 n))).
    intros t p v Hin. unfold Kernel.sum in Hin.
    apply list_elem_of_singleton in Hin. by simplify_eq.
Qed.

End ThreadOrder.

(** ** Evaluations of the further operations *)

(** The column [[1], [2]] plus the row [[10, 20, 30]]. *)
Example broadcast_column_row :
  operator_add column_12 row_123 = Ok (dense_of [11; 21; 31; 12; 22; 32] [2; 3]).
Proof. vm_compute. reflexivity. Qed.

(** Printing [m1234] and its transposed view. *)
Example print_m1234 :
  (out ← operator_lshift [] m1234; Ok (values out))
  = Ok [Some 1; Some 2; Some 3; Some 4] /\
  (out ← operator_lshift [] m1234_T; Ok (values out))
  = Ok [Some 1; Some 3; Some 2; Some 4] /\
  (out ← operator_lshift [] m1234; Ok (take 14 out))
  = Ok [Text "["; Text "["; Value (Some 1); Text ", "; Value (Some 2); Text ", "; Text "]";
        Text "["; Value (Some 3); Text ", "; Value (Some 4); Text ", "; Text "]";
        Text "]"].
Proof. repeat split; vm_compute; reflexivity. Qed.

(** [relu] of the transposed view returns the cells of [m1234] in buffer
    order. *)
Example relu_of_view : data (relu m1234_T) = Some <$> [1; 2; 3; 4].
Proof. vm_compute. reflexivity. Qed.


(** ** Instances of the further results *)

Lemma from_vector_cells_witness :
  Forall (fun d => 0 < d) [2; 2] /\ prod [2; 2] < 2 ^ 32 /\
  (length [1; 2; 3; 4]%Z <= Z.to_nat (prod [2; 2]%Z))%nat /\
  exists t, from_vector [1; 2; 3; 4] [2; 2] = Ok t /\ shape t = [2; 2] /\ dense t /\
    backward t = None /\
    forall k : nat, Kernel.load (data t) (Z.of_nat k) = [1; 2; 3; 4] !! k.
Proof.
  assert (Forall (fun d => 0 < d) [2; 2]) as H1 by (repeat constructor; lia).
  assert (prod [2; 2] < 2 ^ 32) as H2 by reflexivity.
  assert (length [1; 2; 3; 4]%Z <= Z.to_nat (prod [2; 2]%Z))%nat as H3 by (vm_compute; lia).
  repeat (split; [assumption|]).
  exact (proj1 (from_vector_cells (T := Z) [1; 2; 3; 4] [2; 2] H1 H2) H3).
Defined.

Lemma from_vector_subscript_witness :
  prod [2; 2] < 2 ^ 32 /\ (length [1; 2; 3; 4]%Z <= Z.to_nat (prod [2; 2]%Z))%nat /\
  valid_index [1; 0] [2; 2] /\
  exists t, from_vector [1; 2; 3; 4] [2; 2] = Ok t /\
    subscript t [1; 0] = Ok ([1; 2; 3; 4] !! Z.to_nat (flat_index [2; 2] [1; 0])).
Proof.
  assert (prod [2; 2] < 2 ^ 32) as H1 by reflexivity.
  assert (length [1; 2; 3; 4]%Z <= Z.to_nat (prod [2; 2]%Z))%nat as H2 by (vm_compute; lia).
  assert (valid_index [1; 0] [2; 2]) as H3 by (repeat constructor; lia).
  repeat (split; [assumption|]).
  exact (from_vector_subscript (T := Z) [1; 2; 3; 4] [2; 2] [1; 0] H1 H2 H3).
Defined.

Lemma from_scalar_fill_witness :
  Forall (fun d => 0 < d) [2; 3] /\ prod [2; 3] < 2 ^ 32 /\
  from_scalar 7 [2; 3] = from_vector (replicate (Z.to_nat (prod [2; 3])) 7) [2; 3].
Proof.
  assert (Forall (fun d => 0 < d) [2; 3]) as H1 by (repeat constructor; lia).
  assert (prod [2; 3] < 2 ^ 32) as H2 by reflexivity.
  repeat (split; [assumption|]).
  exact (proj1 (from_scalar_fill (T := Z) 7 [2; 3] H1 H2)).
Defined.

Lemma subscript_coordinate_count_witness :
  (length [1]%Z < length (strides m1234))%nat /\ subscript m1234 [1] = Err OutOfRange.
Proof.
  assert (length [1]%Z < length (strides m1234))%nat as H1 by (vm_compute; lia).
  split; [assumption|].
  exact (proj1 (subscript_coordinate_count m1234 [1] []) H1).
Defined.

Lemma subscript_unchecked_column_witness :
  shape m1234 = [] ++ [2; 2] /\ strides m1234 = (row_major (shape m1234)).1 /\
  length (@nil Z) = length (@nil Z) /\
  subscript m1234 ([] ++ [0; 0 + 2]) = subscript m1234 ([] ++ [0 + 1; 0]).
Proof.
  assert (shape m1234 = [] ++ [2; 2]) as H1 by reflexivity.
  assert (strides m1234 = (row_major (shape m1234)).1) as H2 by reflexivity.
  assert (length (@nil Z) = length (@nil Z)) as H3 by reflexivity.
  repeat (split; [assumption|]).
  exact (subscript_unchecked_column m1234 [] [] 2 2 0 0 H1 H2 H3).
Defined.

Lemma transpose_defined_witness :
  ((0 < length (shape m1234))%nat /\ (1 < length (shape m1234))%nat /\
   (0 < length (strides m1234))%nat /\ (1 < length (strides m1234))%nat) /\
  exists v, transpose m1234 0 1 = Ok v /\
    data v = data m1234 /\ backward v = backward m1234 /\ rank v = rank m1234 /\
    n_elements v = n_elements m1234 /\ size v = size m1234 /\
    shape v = exchange 0 1 (shape m1234) /\ strides v = exchange 0 1 (strides m1234).
Proof.
  assert ((0 < length (shape m1234))%nat /\ (1 < length (shape m1234))%nat /\
          (0 < length (strides m1234))%nat /\ (1 < length (strides m1234))%nat) as H1
    by (vm_compute; lia).
  split; [assumption|].
  exact (proj1 (transpose_defined m1234 0 1) H1).
Defined.

Lemma transpose_reads_source_witness :
  transpose m1234 0 1 = Ok m1234_T /\ length [0; 1] = length (strides m1234) /\
  subscript m1234_T (exchange 0 1 [0; 1]) = subscript m1234 [0; 1].
Proof.
  assert (transpose m1234 0 1 = Ok m1234_T) as H1 by reflexivity.
  assert (length [0; 1] = length (strides m1234)) as H2 by reflexivity.
  repeat (split; [assumption|]).
  exact (transpose_reads_source m1234 m1234_T 0 1 [0; 1] H1 H2).
Defined.

Lemma transpose_symmetric_witness :
  (0 < length (shape m1234))%nat /\ (0 < length (strides m1234))%nat /\
  transpose m1234 0 0 = Ok m1234.
Proof.
  assert (0 < length (shape m1234))%nat as H1 by (vm_compute; lia).
  assert (0 < length (strides m1234))%nat as H2 by (vm_compute; lia).
  repeat (split; [assumption|]).
  exact (proj2 (transpose_symmetric m1234 0 0) H1 H2).
Defined.

Lemma unary_operators_cellwise_witness :
  fits_launch (shape m1234) /\ length (data m1234) = Z.to_nat (prod (shape m1234)) /\
  relu m1234
  = with_data (Tensor_new (shape m1234))
      (Kernel.lift1 (fun v => if s_pos v then v else s_zero) <$> data m1234).
Proof.
  assert (fits_launch (shape m1234)) as H1
    by (split; [repeat constructor; lia | reflexivity]).
  assert (length (data m1234) = Z.to_nat (prod (shape m1234))) as H2 by reflexivity.
  repeat (split; [assumption|]).
  exact (proj1 (unary_operators_cellwise m1234 H1 H2)).
Defined.

Lemma unary_on_view_witness :
  transpose m1234 0 1 = Ok m1234_T /\ fits_launch (shape m1234) /\
  length (data m1234) = Z.to_nat (prod (shape m1234)) /\
  valid_index [0; 1] (shape m1234_T) /\
  data (relu m1234_T) = data (relu m1234).
Proof.
  assert (transpose m1234 0 1 = Ok m1234_T) as H1 by reflexivity.
  assert (fits_launch (shape m1234)) as H2
    by (split; [repeat constructor; lia | reflexivity]).
  assert (length (data m1234) = Z.to_nat (prod (shape m1234))) as H3 by reflexivity.
  assert (valid_index [0; 1] (shape m1234_T)) as H4 by (repeat constructor; lia).
  repeat (split; [assumption|]).
  exact (proj1 (unary_on_view_reads_buffer_order m1234 m1234_T 0 1 [0; 1] H1 H2 H3 H4)).
Defined.

Lemma broadcast_elements_witness :
  consistent column_12 /\ consistent row_123 /\ rank column_12 = rank row_123 /\
  fits_launch (zip_with Z.max (shape column_12) (shape row_123)) /\
  exists out, operator_add column_12 row_123 = Ok out /\
    combines s_add column_12 row_123 out.
Proof.
  assert (consistent column_12) as H1 by (split; reflexivity).
  assert (consistent row_123) as H2 by (split; reflexivity).
  assert (rank column_12 = rank row_123) as H3 by reflexivity.
  assert (fits_launch (zip_with Z.max (shape column_12) (shape row_123))) as H4
    by (split; [repeat constructor; lia | reflexivity]).
  repeat (split; [assumption|]).
  exact (proj1 (broadcast_elements [] column_12 row_123 H1 H2 H3 H4)).
Defined.

Lemma operators_align_witness :
  consistent m1234 /\ consistent vector_12 /\ (rank vector_12 < rank m1234)%nat /\
  operator_add m1234 vector_12 = Err OutOfRange.
Proof.
  assert (consistent m1234) as H1 by (split; reflexivity).
  assert (consistent vector_12) as H2 by (split; reflexivity).
  assert (rank vector_12 < rank m1234)%nat as H3 by (vm_compute; lia).
  repeat (split; [assumption|]).
  exact (proj1 (proj2 (operators_align_leading_dimensions [] m1234 vector_12 H1 H2) H3)).
Defined.

Lemma requires_gradients_after_product_witness :
  consistent m1234 /\ consistent m5678 /\ rank m1234 = rank m5678 /\
  backward m1234 = None /\ backward m5678 = None /\
  exists c h1 p, operator_mul [] m1234 m5678 = Ok (c, h1) /\ backward c = Some p.
Proof.
  assert (consistent m1234) as H1 by (split; reflexivity).
  assert (consistent m5678) as H2 by (split; reflexivity).
  assert (rank m1234 = rank m5678) as H3 by reflexivity.
  assert (backward m1234 = None) as H4 by reflexivity.
  assert (backward m5678 = None) as H5 by reflexivity.
  repeat (split; [assumption|]).
  destruct (requires_gradients_after_product [] m1234 m5678 ones_2x2 H1 H2 H3 H4 H5)
    as (c & h1 & p & E & Eb & _).
  exists c, h1, p. split; assumption.
Defined.


Lemma backward_pass_only_appends_witness :
  call 1 one_leaf 0 m1234 = Ok [mkBackward AccumulateGradients [m1234] []] /\
  (length one_leaf <= length [mkBackward AccumulateGradients [m1234] []])%nat /\
  grows one_leaf [mkBackward AccumulateGradients [m1234] []].
Proof.
  assert (call 1 one_leaf 0 m1234 = Ok [mkBackward AccumulateGradients [m1234] []]) as H1
    by reflexivity.
  split; [assumption|].
  exact (backward_pass_only_appends 1 one_leaf _ 0 m1234 H1).
Defined.


Lemma backward_pass_terminates_witness :
  parents_precede one_leaf 0 /\ (0 < 1)%nat /\
  call 1 one_leaf 0 m1234 <> Err OutOfFuel.
Proof.
  assert (parents_precede one_leaf 0) as H1.
  { intros [|q] n Hq E i r Ei; [|lia]. injection E as <-. destruct i; discriminate Ei. }
  assert (0 < 1)%nat as H2 by lia.
  repeat (split; [assumption|]).
  exact (proj1 (backward_pass_terminates one_leaf) 0%nat 1%nat m1234 H1 H2).
Defined.

Lemma mm_operand_checks_witness :
  (length (shape vector_12) < 2)%nat /\ mm vector_12 m1234 = Err OutOfRange.
Proof.
  assert (length (shape vector_12) < 2)%nat as H1 by (vm_compute; lia).
  split; [assumption|].
  exact (proj1 (proj2 (mm_operand_checks vector_12 m1234)) H1).
Defined.

Lemma mm_beyond_grid_limits_witness :
  let a := Tensor_new (T := Z) [65536; 1; 1] in
  shape a = [65536] ++ [1; 1] /\ shape a = [65536; 1] ++ [1] /\
  (length [65536]%Z + 2 <= length (strides a))%nat /\
  fits_launch ([65536] ++ [1; 1]) /\
  (65535 < prod [65536] \/ 16 * 65535 < 1) /\
  mm a a = Ok (Tensor_new ([65536] ++ [1; 1])).
Proof.
  intros a.
  assert (shape a = [65536] ++ [1; 1]) as H1 by reflexivity.
  assert (shape a = [65536; 1] ++ [1]) as H2 by reflexivity.
  assert (length [65536]%Z + 2 <= length (strides a))%nat as H3 by (vm_compute; lia).
  assert (fits_launch ([65536] ++ [1; 1])) as H4
    by (split; [repeat constructor; lia | reflexivity]).
  assert (65535 < prod [65536] \/ 16 * 65535 < 1) as H5 by (left; reflexivity).
  repeat (split; [assumption|]).
  exact (mm_beyond_grid_limits a a [65536] [65536; 1] 1 1 1 H1 H2 H3 H3 H4 H5).
Defined.

Lemma sum_kernel_total_witness :
  0 < x (dim3_1 1) /\ 0 < y (dim3_1 1) /\ 0 < z (dim3_1 1) /\
  Z.of_nat (length [3; 4]) < 2 ^ 31 /\
  Kernel.launch (dim3_1 1) (dim3_1 1)
    (Kernel.sum (Z.of_nat (length [3; 4])) (Some <$> [3; 4])) [None]
  = <[0%nat := Some (foldl s_add s_zero [3; 4])]> [None].
Proof.
  assert (0 < x (dim3_1 1)) as H1 by reflexivity.
  assert (0 < y (dim3_1 1)) as H2 by reflexivity.
  assert (0 < z (dim3_1 1)) as H3 by reflexivity.
  assert (Z.of_nat (length [3; 4]) < 2 ^ 31) as H4 by reflexivity.
  repeat (split; [assumption|]).
  exact (sum_kernel_total (T := Z) (dim3_1 1) (dim3_1 1) [3; 4] [None]
           H1 H2 H3 H1 H2 H3 H4).
Defined.

Lemma sum_returns_sign_witness :
  0 < n_elements m1234 /\
  subscript (sum m1234) (replicate (rank m1234) 0)
  = Ok (Kernel.lift1 (fun v => if s_pos v then s_one else s_zero)
          (Kernel.load (data m1234) 0)).
Proof.
  assert (0 < n_elements m1234) as H1 by reflexivity.
  split; [assumption|].
  exact (proj1 (proj2 (proj2 (proj2 (sum_returns_sign_of_first_cell m1234)))) H1).
Defined.

Lemma constructor_counts_witness :
  Forall (fun d => 0 < d) [2; 3; 4] /\ prod [2; 3; 4] < 2 ^ 64 /\
  n_elements (Tensor_new (T := Z) [2; 3; 4]) = prod [2; 3; 4].
Proof.
  assert (Forall (fun d => 0 < d) [2; 3; 4]) as H1 by (repeat constructor; lia).
  assert (prod [2; 3; 4] < 2 ^ 64) as H2 by reflexivity.
  repeat (split; [assumption|]).
  exact (proj1 (proj1 (proj2 (proj2 (proj2 (constructor_counts (T := Z) [2; 3; 4])))) H1 H2)).
Defined.

Lemma print_visits_row_major_witness :
  consistent m1234_T /\ Forall (fun d => 0 < d) (shape m1234_T) /\
  n_elements m1234_T = prod (shape m1234_T) /\ prod (shape m1234_T) < 2 ^ 31 /\
  exists out vs,
    operator_lshift [] m1234_T = Ok out /\ values out = values [] ++ vs /\
    length vs = Z.to_nat (prod (shape m1234_T)).
Proof.
  assert (consistent m1234_T) as H1 by (split; reflexivity).
  assert (Forall (fun d => 0 < d) (shape m1234_T)) as H2 by (repeat constructor; lia).
  assert (n_elements m1234_T = prod (shape m1234_T)) as H3 by reflexivity.
  assert (prod (shape m1234_T) < 2 ^ 31) as H4 by reflexivity.
  repeat (split; [assumption|]).
  destruct (print_visits_row_major [] m1234_T H1 H2 H3 H4)
    as (out & vs & E & Ev & Lv & _).
  exists out, vs. split; [exact E|]. split; [exact Ev | exact Lv].
Defined.
